(** * DraggableList: the state transitions of the draggable, groupable list

    A shallow embedding of the React component [DraggableList]
    (src/unnamed/part_000).  The component owns seven state slots
    ([useState]); every handler is a function from the current state to the
    next one.  State updates queued by one handler are applied in the order of
    the [setX] calls, each updater seeing the result of the previous one, so a
    handler is the composition of its setters. *)

From stdpp Require Import base option list strings pretty gmap fin_maps.

Local Open Scope Z_scope.

(** ** Data model (lines 11-23) *)

Record Item := mkItem { id : string; content : string }.

Record ItemToGroup := mkItemToGroup { dragged : string; target : string }.

#[global] Instance Item_eq_dec : EqDecision Item.
Proof. solve_decision. Defined.

#[global] Instance ItemToGroup_eq_dec : EqDecision ItemToGroup.
Proof. solve_decision. Defined.

(** [interface GroupedItems { [key: string]: string[] }]: an object used as a
    map from group ids to member ids.  The map holds the object's own keys;
    what a read finds beyond them is [getProperty] below. *)
Abbreviation GroupedItems := (gmap string (list string)).

(** The seven [useState] slots of lines 77-88. *)
Record State := mkState {
  items : list Item;
  groupedItems : GroupedItems;
  activeId : option string;
  showGroupDialog : bool;
  showNameDialog : bool;
  itemToGroup : option ItemToGroup;
  groupName : string
}.

Definition initialState : State :=
  {| items := [mkItem "1" "Item 1"; mkItem "2" "Item 2";
               mkItem "3" "Item 3"; mkItem "4" "Item 4"];
     groupedItems := ∅;
     activeId := None;
     showGroupDialog := false;
     showNameDialog := false;
     itemToGroup := None;
     groupName := "" |}.

(** ** The setters returned by [useState] *)

Definition setItems (f : list Item → list Item) (s : State) : State :=
  {| items := f (items s); groupedItems := groupedItems s;
     activeId := activeId s; showGroupDialog := showGroupDialog s;
     showNameDialog := showNameDialog s; itemToGroup := itemToGroup s;
     groupName := groupName s |}.

Definition setGroupedItems (f : GroupedItems → GroupedItems) (s : State) : State :=
  {| items := items s; groupedItems := f (groupedItems s);
     activeId := activeId s; showGroupDialog := showGroupDialog s;
     showNameDialog := showNameDialog s; itemToGroup := itemToGroup s;
     groupName := groupName s |}.

Definition setActiveId (v : option string) (s : State) : State :=
  {| items := items s; groupedItems := groupedItems s;
     activeId := v; showGroupDialog := showGroupDialog s;
     showNameDialog := showNameDialog s; itemToGroup := itemToGroup s;
     groupName := groupName s |}.

Definition setShowGroupDialog (v : bool) (s : State) : State :=
  {| items := items s; groupedItems := groupedItems s;
     activeId := activeId s; showGroupDialog := v;
     showNameDialog := showNameDialog s; itemToGroup := itemToGroup s;
     groupName := groupName s |}.

Definition setShowNameDialog (v : bool) (s : State) : State :=
  {| items := items s; groupedItems := groupedItems s;
     activeId := activeId s; showGroupDialog := showGroupDialog s;
     showNameDialog := v; itemToGroup := itemToGroup s;
     groupName := groupName s |}.

Definition setItemToGroup (v : option ItemToGroup) (s : State) : State :=
  {| items := items s; groupedItems := groupedItems s;
     activeId := activeId s; showGroupDialog := showGroupDialog s;
     showNameDialog := showNameDialog s; itemToGroup := v;
     groupName := groupName s |}.

Definition setGroupName (v : string) (s : State) : State :=
  {| items := items s; groupedItems := groupedItems s;
     activeId := activeId s; showGroupDialog := showGroupDialog s;
     showNameDialog := showNameDialog s; itemToGroup := itemToGroup s;
     groupName := v |}.

(** ** Array helpers of the host language and of the drag-and-drop library *)

(** [Array.prototype.findIndex]: index of the first element satisfying [p],
    [-1] when there is none. *)
Fixpoint findIndex {A} (p : A → bool) (l : list A) : Z :=
  match l with
  | [] => -1
  | x :: l' =>
      if p x then 0
      else let r := findIndex p l' in if r <? 0 then -1 else r + 1
  end.

(** The start position [Array.prototype.splice] derives from its first
    argument: negative values count from the end, everything is clamped to
    [0 .. len]. *)
Definition spliceStart (len rel : Z) : Z :=
  if rel <? 0 then Z.max (len + rel) 0 else Z.min rel len.

(** [arrayMove] is imported from the drag-and-drop library (line 3) and is not
    part of this repository.  It is

      const newArray = array.slice();
      newArray.splice(to < 0 ? newArray.length + to : to, 0,
                      newArray.splice(from, 1)[0]);
      return newArray;

    The destination expression is evaluated before the inner [splice], hence
    on the full length.  When the inner [splice] removes nothing, the library
    inserts [undefined], which is not a [T]; the model answers [None] in
    that case. *)
Definition arrayMove {A} (array : list A) (from to : Z) : option (list A) :=
  let len := Z.of_nat (length array) in
  let dest := if to <? 0 then len + to else to in
  let src := Z.to_nat (spliceStart len from) in
  let rest := delete src array in
  let pos := Z.to_nat (spliceStart (Z.of_nat (length rest)) dest) in
  match array !! src with
  | Some x => Some (take pos rest ++ x :: drop pos rest)
  | None => None
  end.

(** [items.findIndex(item => item.id === i)] (lines 123-124). *)
Definition indexOfId (i : string) (l : list Item) : Z :=
  findIndex (λ item, bool_decide (id item = i)) l.

(** [Object.values(groupedItems).flat()]: all member ids of all groups. *)
Definition allMembers (g : GroupedItems) : list string :=
  mjoin ((map_to_list g).*2).

(** ** Property reads on the group map *)

(** The group map is a plain object (the [{}] of line 83 and the object
    literals of lines 110, 144 and 159), so a read [groupedItems[k]] that
    finds no own key goes on to [Object.prototype].  These are its string
    keyed members, each a function listed with its number of parameters (its
    [length]), except [__proto__], which reads the prototype object itself
    and has no [length]. *)
Definition objectPrototype : list (string * option nat) :=
  [("constructor", Some 1%nat);
   ("__defineGetter__", Some 2%nat);
   ("__defineSetter__", Some 2%nat);
   ("hasOwnProperty", Some 1%nat);
   ("__lookupGetter__", Some 1%nat);
   ("__lookupSetter__", Some 1%nat);
   ("isPrototypeOf", Some 1%nat);
   ("propertyIsEnumerable", Some 1%nat);
   ("toString", Some 0%nat);
   ("valueOf", Some 0%nat);
   ("toLocaleString", Some 0%nat);
   ("__proto__", None)].

Definition objectPrototypeNames : list string := objectPrototype.*1.

Definition inherited (k : string) : option (option nat) :=
  snd <$> List.find (λ entry, bool_decide (entry.1 = k)) objectPrototype.

(** What a read of the group map can give. *)
Inductive JsValue :=
| JsUndefined
| JsArray (elements : list string)
| JsInherited (arity : option nat).

(** [groupedItems[k]]. *)
Definition getProperty (g : GroupedItems) (k : string) : JsValue :=
  match g !! k with
  | Some elements => JsArray elements
  | None =>
      match inherited k with
      | Some arity => JsInherited arity
      | None => JsUndefined
      end
  end.

(** Truthiness: every array, function and object is truthy. *)
Definition truthy (v : JsValue) : bool :=
  match v with
  | JsUndefined => false
  | JsArray _ | JsInherited _ => true
  end.

(** [v || []] (lines 160 and 190). *)
Definition orEmptyArray (v : JsValue) : JsValue :=
  if truthy v then v else JsArray [].

(** ** Derived view (lines 172-174) *)

Definition visibleItems (s : State) : list Item :=
  filter (λ item, id item ∉ allMembers (groupedItems s)) (items s).

(** [isGrouped={!!groupedItems[item.id]}] (line 189). *)
Definition isGrouped (s : State) (i : string) : bool :=
  truthy (getProperty (groupedItems s) i).

(** ** Handlers *)

(** Lines 97-100. *)
Definition handleDragStart (active : string) (s : State) : State :=
  setActiveId (Some active) s.

(** Lines 102-130.  [over] is [None] when the drag ends over no droppable.
    The updater of line 110 reads [prev[over.id]], the value line 108 has
    just tested; the updater of line 122 receives the current item list.
    The result is [None] when there is no next state: the spread of line 112
    throws on an inherited value, which is not iterable, or the item list
    would come to hold [undefined] (see [arrayMove]). *)
Definition handleDragEnd (active : string) (over : option string) (s : State)
  : option State :=
  match over with
  | None => Some s
  | Some over =>
      if decide (active ≠ over) then
        match getProperty (groupedItems s) over with
        | JsArray members =>
            Some (setActiveId None
                 (setItems (filter (λ item, id item ≠ active))
                 (setGroupedItems (λ prev, <[over := members ++ [active]]> prev) s)))
        | JsInherited _ => None
        | JsUndefined =>
            Some (setActiveId None
                 (setShowGroupDialog true
                 (setItemToGroup (Some (mkItemToGroup active over)) s)))
        end
      else
        let oldIndex := indexOfId active (items s) in
        let newIndex := indexOfId over (items s) in
        match arrayMove (items s) oldIndex newIndex with
        | Some moved => Some (setActiveId None (setItems (λ _, moved) s))
        | None => None
        end
  end.

(** Lines 132-139. *)
Inductive GroupAction := group | cancel.

Definition handleGroup (action : GroupAction) (s : State) : State :=
  match action with
  | group => setShowNameDialog true s
  | cancel => setItemToGroup None (setShowGroupDialog false s)
  end.

(** Line 143: [`group-${Date.now()}`]; [now] is the clock reading in
    milliseconds. *)
Definition newGroupId (now : N) : string := "group-" +:+ pretty now.

(** Lines 141-155. *)
Definition handleNameGroup (now : N) (s : State) : State :=
  let s1 :=
    match itemToGroup s with
    | Some p =>
        setItems (λ prevItems, prevItems ++ [mkItem (newGroupId now) (groupName s)])
       (setItems (filter (λ item, id item ∉ [dragged p; target p]))
       (setGroupedItems (λ prev, <[newGroupId now := [dragged p; target p]]> prev) s))
    | None => s
    end in
  setGroupName ""
 (setItemToGroup None
 (setShowGroupDialog false
 (setShowNameDialog false s1))).

(** Line 165: the label an ungrouped member is given. *)
Definition regenerated (itemId : string) : Item :=
  mkItem itemId ("Item " +:+ itemId).

(** Lines 157-170.  [None]: [ungroupedItems.map] of line 165 throws, the
    value read on line 160 being inherited and no array. *)
Definition handleUngroup (i : string) (s : State) : option State :=
  match orEmptyArray (getProperty (groupedItems s) i) with
  | JsArray ungroupedItems =>
      Some (setItems (λ prevItems,
                        filter (λ item, id item ≠ i) prevItems
                        ++ (regenerated <$> ungroupedItems))
           (setGroupedItems (λ prev, delete i prev) s))
  | JsInherited _ | JsUndefined => None
  end.

(** Line 231: the Cancel button of the name dialog. *)
Definition cancelNameDialog (s : State) : State := setShowNameDialog false s.

(** ** Events of the widget *)

Inductive Event :=
| DragStart (active : string)
| DragEnd (active : string) (over : option string)
| GroupDialog (action : GroupAction)
| GroupDialogOpenChange (open : bool)
| NameInput (text : string)
| NameDialogCancel
| NameDialogOpenChange (open : bool)
| NameGroup (now : N)
| Ungroup (i : string).

Definition dispatch (e : Event) (s : State) : option State :=
  match e with
  | DragStart a => Some (handleDragStart a s)
  | DragEnd a o => handleDragEnd a o s
  | GroupDialog act => Some (handleGroup act s)
  | GroupDialogOpenChange b => Some (setShowGroupDialog b s)
  | NameInput t => Some (setGroupName t s)
  | NameDialogCancel => Some (cancelNameDialog s)
  | NameDialogOpenChange b => Some (setShowNameDialog b s)
  | NameGroup now => Some (handleNameGroup now s)
  | Ungroup i => handleUngroup i s
  end.

(** Steps taken from the initial state.  A row for which [isGrouped] holds is
    rendered with the sortable disabled and without drag listeners (lines 41
    and 55), so no drag starts on it; nothing else is assumed of an event. *)
Definition enabled (s : State) (e : Event) : bool :=
  match e with
  | DragStart a | DragEnd a _ => negb (isGrouped s a)
  | _ => true
  end.

Inductive reachable : State → Prop :=
| reach_init : reachable initialState
| reach_step s e s' :
    reachable s → enabled s e = true → dispatch e s = Some s' → reachable s'.

(** The invariant of the data model: every group key is the id of an item. *)
Definition keysAreItems (s : State) : Prop :=
  ∀ k, is_Some (groupedItems s !! k) → k ∈ id <$> items s.

(** The pending pair never names a group key. *)
Definition pendingNotKeys (s : State) : Prop :=
  ∀ p, itemToGroup s = Some p →
       groupedItems s !! dragged p = None ∧ groupedItems s !! target p = None.

(** What the reachable states keep. *)
Definition invariant (s : State) : Prop := keysAreItems s ∧ pendingNotKeys s.

(** ** Rendering (lines 34-74 and 176-196) *)

(** The props of [SortableItem] (lines 25-32).  [onGroup] is always
    [handleUngroup] (line 188) and is not carried along. *)
Module SortableItemProps.
Record t := mk {
  id : string;
  children : string;
  isGrouped : bool;
  groupedItems : JsValue;
  allItems : list Item
}.
End SortableItemProps.

(** Lines 67-68: the line shown for one member of a group,
    [subItem ? subItem.content : subItemId] with
    [subItem = allItems.find(item => item.id === subItemId)]. *)
Definition memberLabel (allItems : list Item) (subItemId : string) : string :=
  match List.find (λ item, bool_decide (id item = subItemId)) allItems with
  | Some subItem => content subItem
  | None => subItemId
  end.

(** [groupedItems.length > 0] (line 64).  A function's [length] is its number
    of parameters; the prototype object has none, and [undefined > 0] is
    false; [None]: reading a property of [undefined] throws. *)
Definition lengthPositive (v : JsValue) : option bool :=
  match v with
  | JsArray elements => Some (bool_decide (0 < length elements)%nat)
  | JsInherited (Some arity) => Some (bool_decide (0 < arity)%nat)
  | JsInherited None => Some false
  | JsUndefined => None
  end.

(** [groupedItems.map(...)] (lines 66-69); only an array has [map]. *)
Definition mapMembers (allItems : list Item) (v : JsValue) : option (list string) :=
  match v with
  | JsArray elements => Some (memberLabel allItems <$> elements)
  | JsInherited _ | JsUndefined => None
  end.

(** What one row shows: its text, whether the drag listeners are attached
    (line 55), whether the Ungroup button is there (line 58), and the lines of
    the nested member list (lines 64-71). *)
Record SortableItemView := mkView {
  viewId : string;
  viewText : string;
  viewListeners : bool;
  viewUngroupButton : bool;
  viewMembers : list string
}.

(** Lines 64-71: [isGrouped && groupedItems.length > 0 && (...)]. *)
Definition nestedMembers (props : SortableItemProps.t) : option (list string) :=
  if SortableItemProps.isGrouped props then
    match lengthPositive (SortableItemProps.groupedItems props) with
    | Some true =>
        mapMembers (SortableItemProps.allItems props)
                   (SortableItemProps.groupedItems props)
    | Some false => Some []
    | None => None
    end
  else Some [].

(** Lines 34-74.  [None]: rendering the row throws. *)
Definition SortableItem (props : SortableItemProps.t) : option SortableItemView :=
  match nestedMembers props with
  | Some members =>
      Some {| viewId := SortableItemProps.id props;
              viewText := SortableItemProps.children props;
              viewListeners := negb (SortableItemProps.isGrouped props);
              viewUngroupButton := SortableItemProps.isGrouped props;
              viewMembers := members |}
  | None => None
  end.

(** Lines 185-194: the props a visible item is rendered with. *)
Definition rowProps (s : State) (item : Item) : SortableItemProps.t :=
  {| SortableItemProps.id := id item;
     SortableItemProps.children := content item;
     SortableItemProps.isGrouped := isGrouped s (id item);
     SortableItemProps.groupedItems :=
       orEmptyArray (getProperty (groupedItems s) (id item));
     SortableItemProps.allItems := items s |}.

(** Lines 184-195: one row per visible item, in order, each with what it
    shows or [None] when rendering it throws. *)
Definition renderRows (s : State) : list (option SortableItemView) :=
  (λ item, SortableItem (rowProps s item)) <$> visibleItems s.

(** ** Bookkeeping of ids *)

(** Every id the widget holds: the ids of the item list, then the members of
    all groups. *)
Definition allIds (s : State) : list string :=
  (id <$> items s) ++ allMembers (groupedItems s).

(** The shape the handlers give to a group: a generated key, and members
    that start with two different ids. *)
Definition groupsWellFormed (s : State) : Prop :=
  ∀ k ms, groupedItems s !! k = Some ms →
          (∃ now, k = newGroupId now) ∧
          ∃ d t rest, ms = d :: t :: rest ∧ d ≠ t.

Definition pendingDistinct (s : State) : Prop :=
  ∀ p, itemToGroup s = Some p → dragged p ≠ target p.

(** No id the state holds, as a row, a member or in the pending pair, is a
    name of [Object.prototype]. *)
Definition idsPlain (s : State) : Prop :=
  (∀ i, i ∈ id <$> items s → i ∉ objectPrototypeNames) ∧
  (∀ i, i ∈ allMembers (groupedItems s) → i ∉ objectPrototypeNames) ∧
  (∀ p, itemToGroup s = Some p →
        (dragged p ∉ objectPrototypeNames) ∧ target p ∉ objectPrototypeNames).

(** ** Events as the rendered widget delivers them, with the clock *)






(** * Properties *)

(** ** Array helpers *)

Section array_helpers.
Context {A : Type}.
Implicit Types (l : list A) (p : A → bool).

Lemma findIndex_range p l :
  findIndex p l = -1 ∨ 0 ≤ findIndex p l < Z.of_nat (length l).
Proof.
  induction l as [|x l IH]; simpl; [by left|].
  destruct (p x); [right; lia|].
  destruct (Z.ltb_spec (findIndex p l) 0); [by left|right; lia].
Qed.

Lemma findIndex_nil p : findIndex p [] = -1.
Proof. done. Qed.

Lemma spliceStart_inside (len i : Z) : 0 ≤ i ≤ len → spliceStart len i = i.
Proof. unfold spliceStart. destruct (Z.ltb_spec i 0); lia. Qed.

(** Inside the array, [arrayMove] is the usual move: take the element out
    at [from], put it back at [to]. *)
Lemma arrayMove_in_range l (from to : nat) x :
  l !! from = Some x → (to < length l)%nat →
  arrayMove l (Z.of_nat from) (Z.of_nat to)
  = Some (take to (delete from l) ++ x :: drop to (delete from l)).
Proof.
  intros Hx Hto. pose proof (lookup_lt_Some _ _ _ Hx) as Hfrom.
  assert (length (delete from l) = pred (length l)) as Hlen.
  { rewrite length_delete by eauto. lia. }
  unfold arrayMove.
  rewrite (spliceStart_inside _ (Z.of_nat from)) by lia.
  destruct (Z.ltb_spec (Z.of_nat to) 0); [lia|].
  rewrite Nat2Z.id, Hx.
  rewrite (spliceStart_inside _ (Z.of_nat to)) by lia.
  by rewrite Nat2Z.id.
Qed.

Lemma arrayMove_same l (i : nat) :
  (i < length l)%nat → arrayMove l (Z.of_nat i) (Z.of_nat i) = Some l.
Proof.
  intros Hi. destruct (lookup_lt_is_Some_2 l i Hi) as [x Hx].
  rewrite (arrayMove_in_range _ _ _ x) by done. f_equal.
  rewrite delete_take_drop.
  rewrite take_app_le by (rewrite length_take; lia).
  rewrite take_take, Nat.min_id.
  rewrite drop_app_ge by (rewrite length_take; lia).
  rewrite length_take, Nat.min_l, Nat.sub_diag by lia. simpl.
  by apply take_drop_middle.
Qed.

(** Both indices [-1] (the id was not found) on a non-empty array: the last
    element is taken out and put back last. *)
Lemma arrayMove_not_found l : l ≠ [] → arrayMove l (-1) (-1) = Some l.
Proof.
  intros Hne.
  assert (0 < length l)%nat as Hpos by (destruct l; simpl; [done|lia]).
  set (n := pred (length l)).
  assert (length l = S n) as Hlen by lia.
  destruct (lookup_lt_is_Some_2 l n) as [x Hx]; [lia|].
  assert (length (delete n l) = n) as Hlen' by (rewrite length_delete by eauto; lia).
  unfold arrayMove.
  assert (spliceStart (Z.of_nat (length l)) (-1) = Z.of_nat n) as ->
    by (unfold spliceStart; simpl; lia).
  destruct (Z.ltb_spec (-1) 0); [|lia].
  rewrite Nat2Z.id, Hx, Hlen'.
  replace (Z.of_nat (length l) + -1) with (Z.of_nat n) by lia.
  rewrite spliceStart_inside, Nat2Z.id by lia. f_equal.
  rewrite <-Hlen' at 1 3. rewrite firstn_all, drop_all.
  rewrite delete_take_drop, <-Hlen, drop_all, app_nil_r.
  rewrite <-(take_drop_middle l n x) at 2 by done.
  by rewrite <-Hlen, drop_all.
Qed.

Lemma arrayMove_empty (from to : Z) : arrayMove (@nil A) from to = None.
Proof. done. Qed.

(** Whatever the indices, a successful move only permutes the array. *)
Lemma arrayMove_Permutation l from to l' :
  arrayMove l from to = Some l' → l' ≡ₚ l.
Proof.
  unfold arrayMove. intros H.
  destruct (l !! _) as [x|] eqn:Hx; [|done].
  injection H as <-.
  rewrite <-Permutation_middle, take_drop.
  symmetry. by apply delete_Permutation.
Qed.
End array_helpers.

(** With both indices looked up for the same id, a non-empty item list comes
    back as it was. *)
Lemma arrayMove_indexOfId_same (i : string) (l : list Item) :
  l ≠ [] → arrayMove l (indexOfId i l) (indexOfId i l) = Some l.
Proof.
  intros Hne. unfold indexOfId.
  destruct (findIndex_range (λ item, bool_decide (id item = i)) l) as [->|Hr].
  - by apply arrayMove_not_found.
  - rewrite <-(Z2Nat.id (findIndex _ l)) by lia.
    apply arrayMove_same. lia.
Qed.

(** ** Group members *)

Lemma elem_of_allMembers (g : GroupedItems) (x : string) :
  x ∈ allMembers g ↔ ∃ k ms, g !! k = Some ms ∧ x ∈ ms.
Proof.
  unfold allMembers. rewrite list_elem_of_join. split.
  - intros (ms & Hx & Hms). apply list_elem_of_fmap in Hms as ([k ms'] & -> & Hk).
    apply elem_of_map_to_list in Hk. eauto.
  - intros (k & ms & Hk & Hx). exists ms. split; [done|].
    apply list_elem_of_fmap. exists (k, ms). split; [done|].
    by apply elem_of_map_to_list.
Qed.

Lemma elem_of_visibleItems (s : State) (it : Item) :
  it ∈ visibleItems s ↔ (id it ∉ allMembers (groupedItems s)) ∧ it ∈ items s.
Proof. unfold visibleItems. by rewrite list_elem_of_filter. Qed.

(** ** Property reads *)

Lemma find_key_None (k : string) (l : list (string * option nat)) :
  snd <$> List.find (λ entry, bool_decide (entry.1 = k)) l = None ↔ k ∉ l.*1.
Proof.
  induction l as [|[k' v] l IH]; simpl.
  - split; [intros _; apply not_elem_of_nil|done].
  - rewrite not_elem_of_cons. destruct (decide (k' = k)) as [->|Hne].
    + rewrite bool_decide_eq_true_2 by done. simpl. split; [done|by intros []].
    + rewrite bool_decide_eq_false_2 by done. rewrite IH. split.
      * intros ?. split; [congruence|done].
      * by intros [_ ?].
Qed.

Lemma inherited_None (k : string) :
  inherited k = None ↔ k ∉ objectPrototypeNames.
Proof. apply find_key_None. Qed.

Lemma getProperty_array (g : GroupedItems) (k : string) (ms : list string) :
  getProperty g k = JsArray ms ↔ g !! k = Some ms.
Proof.
  unfold getProperty. destruct (g !! k) as [ms'|].
  - split; congruence.
  - destruct (inherited k); split; congruence.
Qed.

Lemma getProperty_undefined (g : GroupedItems) (k : string) :
  getProperty g k = JsUndefined ↔ g !! k = None ∧ k ∉ objectPrototypeNames.
Proof.
  unfold getProperty. rewrite <-inherited_None. destruct (g !! k) as [ms|].
  - split; [done|by intros []].
  - destruct (inherited k); split; (done || by intros []).
Qed.

Lemma getProperty_inherited (g : GroupedItems) (k : string) (arity : option nat) :
  getProperty g k = JsInherited arity → g !! k = None ∧ k ∈ objectPrototypeNames.
Proof.
  unfold getProperty. destruct (g !! k) as [ms|]; [done|].
  destruct (inherited k) as [a|] eqn:Hk; [|done]. intros _. split; [done|].
  destruct (decide (k ∈ objectPrototypeNames)) as [|Hno]; [done|].
  apply inherited_None in Hno. congruence.
Qed.

Lemma getProperty_plain (g : GroupedItems) (k : string) :
  k ∉ objectPrototypeNames →
  getProperty g k = match g !! k with Some ms => JsArray ms | None => JsUndefined end.
Proof.
  intros Hk%inherited_None. unfold getProperty. by rewrite Hk.
Qed.

Lemma isGrouped_false (s : State) (i : string) :
  isGrouped s i = false ↔ groupedItems s !! i = None ∧ i ∉ objectPrototypeNames.
Proof.
  unfold isGrouped. rewrite <-getProperty_undefined.
  destruct (getProperty _ _); simpl; split; congruence.
Qed.

Lemma isGrouped_key (s : State) (i : string) :
  is_Some (groupedItems s !! i) → isGrouped s i = true.
Proof.
  intros [ms Hk]. unfold isGrouped. apply getProperty_array in Hk. by rewrite Hk.
Qed.

(** A generated id is no name of [Object.prototype], and neither is a seed
    id. *)
Lemma newGroupId_not_inherited (now : N) : newGroupId now ∉ objectPrototypeNames.
Proof.
  unfold newGroupId. simpl. intros H.
  repeat (apply elem_of_cons in H as [H|H]; [discriminate H|]).
  by apply elem_of_nil in H.
Qed.

Lemma seed_not_inherited (i : string) :
  i ∈ id <$> items initialState → i ∉ objectPrototypeNames.
Proof.
  simpl. intros H.
  repeat (apply elem_of_cons in H as [->|H];
          [intros H';
           repeat (apply elem_of_cons in H' as [H'|H']; [discriminate H'|]);
           by apply elem_of_nil in H'|]).
  by apply elem_of_nil in H.
Qed.

(** The three ways a drag can end over a row other than the dragged one. *)
Lemma handleDragEnd_key (s : State) (active over : string) (members : list string) :
  active ≠ over → groupedItems s !! over = Some members →
  handleDragEnd active (Some over) s
  = Some (setActiveId None
         (setItems (filter (λ item, id item ≠ active))
         (setGroupedItems (λ prev, <[over := members ++ [active]]> prev) s))).
Proof.
  intros Hdiff Hk%getProperty_array. unfold handleDragEnd.
  rewrite decide_True by done. by rewrite Hk.
Qed.

Lemma handleDragEnd_undefined (s : State) (active over : string) :
  active ≠ over → getProperty (groupedItems s) over = JsUndefined →
  handleDragEnd active (Some over) s
  = Some (setActiveId None (setShowGroupDialog true
            (setItemToGroup (Some (mkItemToGroup active over)) s))).
Proof.
  intros Hdiff Hk. unfold handleDragEnd. rewrite decide_True by done. by rewrite Hk.
Qed.

Lemma handleDragEnd_inherited (s : State) (active over : string) :
  active ≠ over → groupedItems s !! over = None → over ∈ objectPrototypeNames →
  handleDragEnd active (Some over) s = None.
Proof.
  intros Hdiff Hk Hin. unfold handleDragEnd. rewrite decide_True by done.
  destruct (getProperty (groupedItems s) over) as [|ms|a] eqn:Hget; [| |done].
  - apply getProperty_undefined in Hget as [_ ?]. done.
  - apply getProperty_array in Hget. congruence.
Qed.

(** The ways an Ungroup can go. *)
Lemma handleUngroup_key (s : State) (i : string) (members : list string) :
  groupedItems s !! i = Some members →
  handleUngroup i s
  = Some (setItems (λ prevItems,
                      filter (λ item, id item ≠ i) prevItems
                      ++ (regenerated <$> members))
         (setGroupedItems (λ prev, delete i prev) s)).
Proof.
  intros Hk%getProperty_array. unfold handleUngroup. by rewrite Hk.
Qed.

Lemma handleUngroup_undefined (s : State) (i : string) :
  getProperty (groupedItems s) i = JsUndefined →
  handleUngroup i s = Some (setItems (filter (λ item, id item ≠ i)) s).
Proof.
  intros Hk. pose proof Hk as [Hnone _]%getProperty_undefined.
  unfold handleUngroup. rewrite Hk. simpl. f_equal.
  unfold setItems, setGroupedItems. simpl.
  by rewrite delete_id, app_nil_r.
Qed.

Lemma handleUngroup_inherited (s : State) (i : string) :
  groupedItems s !! i = None → i ∈ objectPrototypeNames →
  handleUngroup i s = None.
Proof.
  intros Hk Hin. unfold handleUngroup.
  destruct (getProperty (groupedItems s) i) as [|ms|a] eqn:Hget; [| |done].
  - apply getProperty_undefined in Hget as [_ ?]. done.
  - apply getProperty_array in Hget. congruence.
Qed.

Lemma handleUngroup_Some (s s' : State) (i : string) :
  handleUngroup i s = Some s' →
  s' = setItems (λ prevItems,
                   filter (λ item, id item ≠ i) prevItems
                   ++ (regenerated <$> default [] (groupedItems s !! i)))
         (setGroupedItems (λ prev, delete i prev) s).
Proof.
  unfold handleUngroup.
  destruct (getProperty (groupedItems s) i) as [|ms|a] eqn:Hget; simpl; [| |done].
  - apply getProperty_undefined in Hget as [-> _]. by intros [= <-].
  - apply getProperty_array in Hget. rewrite Hget. by intros [= <-].
Qed.

(** ** No reachable state holds a name of [Object.prototype] *)

Lemma idsPlain_initial : idsPlain initialState.
Proof.
  split_and!.
  - apply seed_not_inherited.
  - intros i. simpl. unfold allMembers. rewrite map_to_list_empty.
    by intros ?%elem_of_nil.
  - by intros p Hp.
Qed.

Lemma idsPlain_handleDragEnd (s s' : State) (active : string) (over : option string) :
  idsPlain s → isGrouped s active = false →
  handleDragEnd active over s = Some s' → idsPlain s'.
Proof.
  intros (Hrows & Hmem & Hpend) [_ Hactive]%isGrouped_false Hstep.
  unfold handleDragEnd in Hstep.
  destruct over as [over|]; [|by injection Hstep as <-].
  destruct (decide (active ≠ over)) as [Hdiff|_].
  - destruct (getProperty (groupedItems s) over) as [|members|a] eqn:Hget;
      [| |done]; injection Hstep as <-.
    + apply getProperty_undefined in Hget as [_ Hover].
      split_and!; [done..|]. intros p Hp. simpl in Hp. by injection Hp as <-.
    + apply getProperty_array in Hget. split_and!; [| |done].
      * intros i (it & -> & [_ Hit]%list_elem_of_filter)%list_elem_of_fmap.
        apply Hrows. by apply list_elem_of_fmap_2.
      * intros i (k & ms & Hk & Hi)%elem_of_allMembers. simpl in Hk.
        destruct (decide (over = k)) as [<-|Hne].
        -- rewrite lookup_insert_eq in Hk. injection Hk as <-.
           apply elem_of_app in Hi as [Hi|Hi].
           ++ apply Hmem, elem_of_allMembers. eauto.
           ++ apply list_elem_of_singleton in Hi. by subst.
        -- rewrite lookup_insert_ne in Hk by done.
           apply Hmem, elem_of_allMembers. eauto.
  - destruct (arrayMove _ _ _) as [moved|] eqn:Hmove; [|done].
    injection Hstep as <-. apply arrayMove_Permutation in Hmove.
    split_and!; [|done..]. intros i. simpl. rewrite Hmove. apply Hrows.
Qed.

Lemma idsPlain_handleNameGroup (s : State) (now : N) :
  idsPlain s → idsPlain (handleNameGroup now s).
Proof.
  intros (Hrows & Hmem & Hpend). unfold handleNameGroup.
  destruct (itemToGroup s) as [p|] eqn:Hp; [|by split_and!].
  destruct (Hpend p eq_refl) as [Hd Ht]. split_and!; [| |done].
  - intros i. simpl. rewrite fmap_app.
    intros [(it & -> & [_ Hit]%list_elem_of_filter)%list_elem_of_fmap|Hi]%elem_of_app.
    + apply Hrows. by apply list_elem_of_fmap_2.
    + apply list_elem_of_singleton in Hi. subst i. apply newGroupId_not_inherited.
  - intros i (k & ms & Hk & Hi)%elem_of_allMembers. simpl in Hk.
    destruct (decide (newGroupId now = k)) as [<-|Hne].
    + rewrite lookup_insert_eq in Hk. injection Hk as <-.
      apply elem_of_cons in Hi as [->|Hi]; [done|].
      apply elem_of_cons in Hi as [->|Hi]; [done|].
      by apply elem_of_nil in Hi.
    + rewrite lookup_insert_ne in Hk by done.
      apply Hmem, elem_of_allMembers. eauto.
Qed.

Lemma idsPlain_handleUngroup (s s' : State) (i : string) :
  idsPlain s → handleUngroup i s = Some s' → idsPlain s'.
Proof.
  intros (Hrows & Hmem & Hpend) ->%handleUngroup_Some. split_and!; [| |done].
  - intros j. simpl. rewrite fmap_app.
    intros [(it & -> & [_ Hit]%list_elem_of_filter)%list_elem_of_fmap
           |(it & -> & (m & -> & Hm)%list_elem_of_fmap)%list_elem_of_fmap]%elem_of_app.
    + apply Hrows. by apply list_elem_of_fmap_2.
    + simpl. destruct (groupedItems s !! i) as [ms|] eqn:Hk; simpl in Hm.
      * apply Hmem, elem_of_allMembers. eauto.
      * by apply elem_of_nil in Hm.
  - intros j (k & ms & Hk & Hj)%elem_of_allMembers. simpl in Hk.
    apply lookup_delete_Some in Hk as [_ Hk].
    apply Hmem, elem_of_allMembers. eauto.
Qed.

Lemma idsPlain_step (s s' : State) (e : Event) :
  idsPlain s → enabled s e = true → dispatch e s = Some s' → idsPlain s'.
Proof.
  intros Hplain Hen Hstep.
  destruct e as [a|a o|act|b|t| |b|now|i]; simpl in *.
  - by injection Hstep as <-.
  - apply negb_true_iff in Hen. by eapply idsPlain_handleDragEnd.
  - injection Hstep as <-. destruct act; [done|].
    destruct Hplain as (? & ? & _). split_and!; [done..|]. by intros p Hp.
  - by injection Hstep as <-.
  - by injection Hstep as <-.
  - by injection Hstep as <-.
  - by injection Hstep as <-.
  - injection Hstep as <-. by apply idsPlain_handleNameGroup.
  - by eapply idsPlain_handleUngroup.
Qed.

Lemma reachable_idsPlain (s : State) : reachable s → idsPlain s.
Proof.
  induction 1 as [|s e s' _ IH Hen Hstep].
  - apply idsPlain_initial.
  - by eapply idsPlain_step.
Qed.

(** Reads of the group map at the id of a row of a reachable state never
    reach [Object.prototype]. *)
Lemma reachable_row_read (s : State) (i : string) :
  reachable s → i ∈ id <$> items s →
  getProperty (groupedItems s) i
  = match groupedItems s !! i with Some ms => JsArray ms | None => JsUndefined end.
Proof.
  intros (Hrows & _)%reachable_idsPlain Hi. by apply getProperty_plain, Hrows.
Qed.

(** The drop targets line 108 does not take for a group: the read is
    undefined, as it is in particular for every row of a reachable state
    that is no key of the group map. *)
Lemma not_a_group_read (s : State) (over : string) :
  getProperty (groupedItems s) over = JsUndefined ∨
  (reachable s ∧ over ∈ id <$> items s ∧ groupedItems s !! over = None) →
  getProperty (groupedItems s) over = JsUndefined.
Proof.
  intros [Hread|(Hr & Hrow & Hk)]; [done|].
  rewrite reachable_row_read by done. by rewrite Hk.
Qed.

(** ** Drag end *)

(** Whenever the drag ends over some row, the recorded dragged id is reset
    (line 129). *)
Lemma handleDragEnd_over_clears_activeId (s s' : State) (active over : string) :
  handleDragEnd active (Some over) s = Some s' → activeId s' = None.
Proof.
  unfold handleDragEnd. intros H.
  destruct (decide (active ≠ over)).
  - destruct (getProperty (groupedItems s) over); [|by injection H as <-|done].
    by injection H as <-.
  - destruct (arrayMove _ _ _); [by injection H as <-|done].
Qed.

(** C9: every drag-end has a next state.  With no drop target the whole state
    is returned as it is.  Dropped on its own id, the array-move runs with the
    source index equal to the destination index and gives back the item list
    of a non-empty list position by position; only the dragged id is reset.
    A drop on any other id has a next state whenever the read of line 108
    does not end at [Object.prototype], and so for every drop on a row of a
    state reached from the initial one. *)
Theorem handleDragEnd_total_and_noop (s : State) (active : string) :
  handleDragEnd active None s = Some s ∧
  (items s ≠ [] →
     handleDragEnd active (Some active) s = Some (setActiveId None s) ∧
     items (setActiveId None s) = items s ∧
     ∀ over, (is_Some (groupedItems s !! over) ∨ over ∉ objectPrototypeNames) →
             is_Some (handleDragEnd active (Some over) s)) ∧
  (reachable s →
     ∀ over, over ∈ id <$> items s → is_Some (handleDragEnd active (Some over) s)).
Proof.
  assert (items s ≠ [] →
          handleDragEnd active (Some active) s = Some (setActiveId None s)) as Hsame.
  { intros Hne. unfold handleDragEnd. rewrite decide_False by (by intros []).
    by rewrite arrayMove_indexOfId_same. }
  assert (items s ≠ [] →
          ∀ over, (is_Some (groupedItems s !! over) ∨ over ∉ objectPrototypeNames) →
                  is_Some (handleDragEnd active (Some over) s)) as Htotal.
  { intros Hne over Hread.
    destruct (decide (active = over)) as [<-|Hdiff]; [by rewrite Hsame|].
    destruct (groupedItems s !! over) as [ms|] eqn:Hk.
    - by rewrite (handleDragEnd_key _ _ _ ms).
    - destruct Hread as [[? ?]|Hplain]; [done|].
      rewrite handleDragEnd_undefined; [done..|]. by apply getProperty_undefined. }
  split_and!; [done| |].
  - intros Hne. split_and!; [by apply Hsame|done|by apply Htotal].
  - intros Hr over Hover. apply Htotal.
    + intros Hnil. rewrite Hnil in Hover. by apply elem_of_nil in Hover.
    + right. destruct (reachable_idsPlain s Hr) as [Hrows _]. by apply Hrows.
Qed.

Lemma handleDragEnd_total_and_noop_witness :
  items initialState ≠ [] ∧
  handleDragEnd "2" None initialState = Some initialState ∧
  handleDragEnd "2" (Some "2") initialState = Some (setActiveId None initialState) ∧
  is_Some (handleDragEnd "2" (Some "4") initialState).
Proof.
  assert (items initialState ≠ []) as Hne by done.
  destruct (handleDragEnd_total_and_noop initialState "2") as (Hnone & Hsame & Hreach).
  destruct (Hsame Hne) as (Heq & _ & _).
  split_and!; [exact Hne|exact Hnone|exact Heq|].
  apply (Hreach reach_init "4"). vm_compute. repeat constructor.
Defined.

(** C7: a drag that ends on a different id that is no group (the read of
    line 108 is undefined; so for every row of a reachable state that is no
    key of the group map) changes neither the item list nor the group map;
    it stores the pair, opens the confirmation dialog (and resets the dragged
    id, as every drop on a row does).  Declining the dialog afterwards leaves
    the item list and the group map as they were before the drag ended. *)
Theorem handleDragEnd_on_item_then_decline (s : State) (active over : string) :
  active ≠ over →
  (getProperty (groupedItems s) over = JsUndefined ∨
   (reachable s ∧ over ∈ id <$> items s ∧ groupedItems s !! over = None)) →
  ∃ s', handleDragEnd active (Some over) s = Some s' ∧
        s' = setActiveId None (setShowGroupDialog true
               (setItemToGroup (Some (mkItemToGroup active over)) s)) ∧
        items s' = items s ∧ groupedItems s' = groupedItems s ∧
        itemToGroup s' = Some (mkItemToGroup active over) ∧
        showGroupDialog s' = true ∧
        showNameDialog s' = showNameDialog s ∧ groupName s' = groupName s ∧
        items (handleGroup cancel s') = items s ∧
        groupedItems (handleGroup cancel s') = groupedItems s.
Proof.
  intros Hdiff Hnone%not_a_group_read. eexists. split.
  - by apply handleDragEnd_undefined.
  - by split_and!.
Qed.

Lemma handleDragEnd_on_item_then_decline_witness :
  ∃ s', handleDragEnd "1" (Some "3") initialState = Some s' ∧
        items (handleGroup cancel s') = items initialState ∧
        groupedItems (handleGroup cancel s') = groupedItems initialState.
Proof.
  destruct (handleDragEnd_on_item_then_decline initialState "1" "3")
    as (s' & Hs' & _ & _ & _ & _ & _ & _ & _ & Hi & Hg); [done| |].
  - right. split_and!; [apply reach_init| |reflexivity].
    vm_compute. repeat constructor.
  - exists s'. by split_and!.
Defined.

(** C4 as stated fails: the drag of row "1" ends over no droppable and the
    dragged id stays recorded. *)
Lemma handleDragEnd_no_target_keeps_activeId :
  ∃ s', handleDragEnd "1" None (handleDragStart "1" initialState) = Some s' ∧
        activeId s' = Some "1".
Proof. by eexists. Qed.

(** C4, amended: the dragged id is reset by every drag end that has a drop
    target: the next state, which exists for a non-empty item list whenever
    the read of line 108 does not end at [Object.prototype], holds no
    dragged id.  A drag end without drop target returns before the reset
    (line 105) and leaves the recorded id, like all of the state, as it
    is. *)
Theorem handleDragEnd_resets_activeId_on_target (s : State) (active : string) :
  (∀ over s', handleDragEnd active (Some over) s = Some s' → activeId s' = None) ∧
  (∀ over, items s ≠ [] →
           (is_Some (groupedItems s !! over) ∨ over ∉ objectPrototypeNames) →
           ∃ s', handleDragEnd active (Some over) s = Some s' ∧ activeId s' = None) ∧
  (∃ s', handleDragEnd active None s = Some s' ∧ activeId s' = activeId s).
Proof.
  split_and!.
  - intros over s'. apply handleDragEnd_over_clears_activeId.
  - intros over Hne Hread.
    assert (∃ s', handleDragEnd active (Some over) s = Some s') as [s' Hs'].
    { destruct (decide (active = over)) as [<-|Hdiff].
      - unfold handleDragEnd. rewrite decide_False by (by intros []).
        rewrite arrayMove_indexOfId_same by done. eauto.
      - destruct (groupedItems s !! over) as [ms|] eqn:Hk.
        + rewrite (handleDragEnd_key _ _ _ ms) by done. eauto.
        + destruct Hread as [[? ?]|Hplain]; [done|].
          rewrite handleDragEnd_undefined; [eauto|done|].
          by apply getProperty_undefined. }
    exists s'. split; [done|]. by eapply handleDragEnd_over_clears_activeId.
  - by exists s.
Qed.

Lemma handleDragEnd_resets_activeId_on_target_witness :
  ∃ s', handleDragEnd "1" (Some "3") (handleDragStart "1" initialState) = Some s' ∧
        activeId s' = None.
Proof.
  destruct (handleDragEnd_resets_activeId_on_target
              (handleDragStart "1" initialState) "1") as (_ & Hdef & _).
  apply (Hdef "3"); [done|]. right. vm_compute. intros H.
  repeat (apply elem_of_cons in H as [H|H]; [discriminate H|]).
  by apply elem_of_nil in H.
Defined.

(** ** Dialogs *)

(** Declining the confirmation dialog (line 207) drops the pending pair and
    touches neither the items nor the groups. *)
Lemma handleGroup_cancel_discards (s : State) :
  itemToGroup (handleGroup cancel s) = None ∧
  showGroupDialog (handleGroup cancel s) = false ∧
  items (handleGroup cancel s) = items s ∧
  groupedItems (handleGroup cancel s) = groupedItems s.
Proof. done. Qed.

(** Cancelling the name dialog (line 231) touches neither the items nor the
    groups, and nothing but the dialog flag. *)
Lemma cancelNameDialog_frame (s : State) :
  cancelNameDialog s = setShowNameDialog false s ∧
  items (cancelNameDialog s) = items s ∧
  groupedItems (cancelNameDialog s) = groupedItems s ∧
  itemToGroup (cancelNameDialog s) = itemToGroup s.
Proof. done. Qed.

(** C5, on the path that misses it: row "1" is dropped on row "3", the
    grouping is accepted, the name dialog is cancelled; the pair is still
    stored afterwards. *)
Theorem cancelNameDialog_keeps_pending_pair :
  ∃ s1, handleDragEnd "1" (Some "3") initialState = Some s1 ∧
        itemToGroup (cancelNameDialog (handleGroup group s1))
        = Some (mkItemToGroup "1" "3").
Proof. by eexists. Qed.

(** ** Reordering *)

(** C1 as stated fails: row "1" is dropped on row "3" in the initial list.
    Moving index 0 to index 2 would give 2, 3, 1, 4; the handler keeps
    1, 2, 3, 4 and opens the confirmation dialog instead. *)
Lemma reorder_on_other_item_counterexample :
  "1" ≠ "3" ∧ groupedItems initialState !! "3" = None ∧
  arrayMove (items initialState)
            (indexOfId "1" (items initialState))
            (indexOfId "3" (items initialState))
  = Some [mkItem "2" "Item 2"; mkItem "3" "Item 3";
          mkItem "1" "Item 1"; mkItem "4" "Item 4"] ∧
  ∃ s', handleDragEnd "1" (Some "3") initialState = Some s' ∧
        items s' = [mkItem "1" "Item 1"; mkItem "2" "Item 2";
                    mkItem "3" "Item 3"; mkItem "4" "Item 4"] ∧
        Some (items s') ≠ arrayMove (items initialState)
                            (indexOfId "1" (items initialState))
                            (indexOfId "3" (items initialState)) ∧
        showGroupDialog s' = true.
Proof. split_and!; [done..|]. eexists. by split_and!. Qed.

(** C1, amended: a drag that ends on a different id that is no group (the
    read of line 108 is undefined; so for every row of a reachable state that
    is no key of the group map) leaves the item list as it is: the pair is
    stored and the confirmation dialog opens.  The array-move runs only when
    the drag ends on the dragged id itself, with the source index equal to
    the destination index, and gives a non-empty item list back in its
    order. *)
Theorem handleDragEnd_reorder_only_on_same_id (s : State) (active over : string) :
  (active ≠ over →
   (getProperty (groupedItems s) over = JsUndefined ∨
    (reachable s ∧ over ∈ id <$> items s ∧ groupedItems s !! over = None)) →
     ∃ s', handleDragEnd active (Some over) s = Some s' ∧
           items s' = items s ∧
           itemToGroup s' = Some (mkItemToGroup active over) ∧
           showGroupDialog s' = true) ∧
  (items s ≠ [] →
     ∃ s', handleDragEnd active (Some active) s = Some s' ∧
           arrayMove (items s) (indexOfId active (items s))
                     (indexOfId active (items s)) = Some (items s') ∧
           items s' = items s).
Proof.
  split.
  - intros Hdiff Hnone%not_a_group_read. eexists. split.
    + by apply handleDragEnd_undefined.
    + by split_and!.
  - intros Hne. exists (setActiveId None s). split_and!; [|by apply arrayMove_indexOfId_same|done].
    unfold handleDragEnd. rewrite decide_False by (by intros []).
    by rewrite arrayMove_indexOfId_same.
Qed.

Lemma handleDragEnd_reorder_only_on_same_id_witness :
  (∃ s', handleDragEnd "1" (Some "3") initialState = Some s' ∧
         items s' = items initialState) ∧
  (∃ s', handleDragEnd "1" (Some "1") initialState = Some s' ∧
         items s' = items initialState).
Proof.
  destruct (handleDragEnd_reorder_only_on_same_id initialState "1" "3") as [Hd Hs].
  split.
  - destruct Hd as (s' & H1 & H2 & _); [done| |by exists s'].
    right. split_and!; [apply reach_init| |reflexivity].
    vm_compute. repeat constructor.
  - destruct Hs as (s' & H1 & _ & H2); [done|]. by exists s'.
Defined.

(** ** Ungroup *)

(** C10 as stated fails: "constructor" is no key of the (empty) group map,
    yet Ungroup with it has no next state: line 160 reads the inherited
    function and [map] of line 165 throws. *)
Lemma ungroup_inherited_name_counterexample :
  groupedItems initialState !! "constructor" = None ∧
  handleUngroup "constructor" initialState = None.
Proof. done. Qed.

(** C10, amended: Ungroup on an id for which the read of line 160 finds
    nothing (no key of the group map and no name of [Object.prototype])
    leaves the group map as it is, removes every item carrying that id and
    adds nothing; in particular a plain visible row with that id is gone from
    the item list. *)
Theorem handleUngroup_not_a_key (s : State) (i : string) :
  groupedItems s !! i = None → i ∉ objectPrototypeNames →
  ∃ s', handleUngroup i s = Some s' ∧
        s' = setItems (filter (λ item, id item ≠ i)) s ∧
        groupedItems s' = groupedItems s ∧
        items s' = filter (λ item, id item ≠ i) (items s) ∧
        (∀ it, it ∈ visibleItems s → id it = i → it ∉ items s') ∧
        i ∉ id <$> items s'.
Proof.
  intros Hnone Hplain. eexists. split.
  { apply handleUngroup_undefined. by apply getProperty_undefined. }
  simpl. split_and!.
  - done.
  - done.
  - done.
  - intros it _ Hid [Hne _]%list_elem_of_filter. done.
  - intros (it & Hid & [Hne _]%list_elem_of_filter)%list_elem_of_fmap. done.
Qed.

Lemma handleUngroup_not_a_key_witness :
  ∃ s', handleUngroup "2" initialState = Some s' ∧
        items s' = [mkItem "1" "Item 1"; mkItem "3" "Item 3"; mkItem "4" "Item 4"] ∧
        groupedItems s' = ∅.
Proof.
  destruct (handleUngroup_not_a_key initialState "2") as (s' & Hs' & _ & Hg & Hi & _).
  - reflexivity.
  - vm_compute. intros H.
    repeat (apply elem_of_cons in H as [H|H]; [discriminate H|]).
    by apply elem_of_nil in H.
  - exists s'. split_and!; [exact Hs'| |exact Hg].
    rewrite Hi. reflexivity.
Defined.




(** ** Drop into a group *)

Lemma visible_not_member (s : State) (it : Item) :
  it ∈ visibleItems s → id it ∉ allMembers (groupedItems s).
Proof. by intros [? _]%elem_of_visibleItems. Qed.

(** C6: a drag that ends on a group key other than the dragged id appends the
    dragged id at the end of that group's members, takes the dragged row out
    of the item list and so out of the visible rows, and leaves the dialogs
    and the pending pair alone.  A dragged id that was no member before (as
    every visible row is, see [visible_not_member]) is afterwards a member of
    that one group only, once. *)
Theorem handleDragEnd_into_group
    (s : State) (active over : string) (members : list string) :
  groupedItems s !! over = Some members → active ≠ over →
  ∃ s', handleDragEnd active (Some over) s = Some s' ∧
        groupedItems s' = <[over := members ++ [active]]> (groupedItems s) ∧
        groupedItems s' !! over = Some (members ++ [active]) ∧
        items s' = filter (λ item, id item ≠ active) (items s) ∧
        (active ∉ id <$> visibleItems s') ∧
        showGroupDialog s' = showGroupDialog s ∧
        showNameDialog s' = showNameDialog s ∧
        itemToGroup s' = itemToGroup s ∧
        (active ∉ allMembers (groupedItems s) →
           (active ∉ members) ∧
           ∀ k ms, groupedItems s' !! k = Some ms → active ∈ ms → k = over).
Proof.
  intros Hover Hdiff. eexists. split.
  { by apply handleDragEnd_key. }
  simpl. split_and!; try done.
  - apply lookup_insert_eq.
  - intros (it & Hid & [_ [Hne _]%list_elem_of_filter]%elem_of_visibleItems)%list_elem_of_fmap.
    done.
  - intros Hfree. split.
    + intros Hin. apply Hfree, elem_of_allMembers. eauto.
    + intros k ms Hk Hin. destruct (decide (k = over)) as [|Hne]; [done|].
      rewrite lookup_insert_ne in Hk by done.
      exfalso. apply Hfree, elem_of_allMembers. eauto.
Qed.

Lemma handleDragEnd_into_group_witness :
  ∃ s1, handleDragEnd "1" (Some "3") initialState = Some s1 ∧
        let s2 := handleNameGroup 0 (setGroupName "G1" (handleGroup group s1)) in
        ∃ s3, handleDragEnd "2" (Some (newGroupId 0)) s2 = Some s3 ∧
              groupedItems s3 !! newGroupId 0 = Some ["1"; "3"; "2"] ∧
              visibleItems s3 = [mkItem "4" "Item 4"; mkItem (newGroupId 0) "G1"].
Proof.
  eexists. split; [reflexivity|]. intros s2.
  destruct (handleDragEnd_into_group s2 "2" (newGroupId 0) ["1"; "3"])
    as (s3 & Hs3 & Hg & Hover & Hitems & _); [reflexivity|done|].
  exists s3. split_and!; [exact Hs3|exact Hover|].
  unfold visibleItems. rewrite Hitems, Hg. reflexivity.
Defined.

(** ** Name and create a group *)

Lemma allMembers_insert_fresh (g : GroupedItems) (k x : string) (ms : list string) :
  g !! k = None → x ∈ allMembers (<[k := ms]> g) ↔ x ∈ ms ∨ x ∈ allMembers g.
Proof.
  intros Hk. rewrite !elem_of_allMembers. split.
  - intros (k' & ms' & Hk' & Hx).
    destruct (decide (k = k')) as [<-|Hne].
    + rewrite lookup_insert_eq in Hk'. injection Hk' as <-. by left.
    + rewrite lookup_insert_ne in Hk' by done. right. eauto.
  - intros [Hx|(k' & ms' & Hk' & Hx)].
    + exists k, ms. by rewrite lookup_insert_eq.
    + exists k', ms'. split; [|done].
      rewrite lookup_insert_ne; [done|]. intros ->. congruence.
Qed.


Lemma allMembers_empty : allMembers ∅ = [].
Proof. unfold allMembers. by rewrite map_to_list_empty. Qed.

(** A group id starts with "group-". *)
Lemma newGroupId_prefix (now : N) : ∃ rest, newGroupId now = "group-" +:+ rest.
Proof. unfold newGroupId. eauto. Qed.

(** The visible rows after a group has been created under a fresh id. *)
Lemma visibleItems_handleNameGroup (s : State) (D T : string) (now : N) :
  itemToGroup s = Some (mkItemToGroup D T) →
  groupedItems s !! newGroupId now = None →
  newGroupId now ∉ allMembers (groupedItems s) →
  newGroupId now ≠ D → newGroupId now ≠ T →
  visibleItems (handleNameGroup now s)
  = filter (λ item, id item ∉ [D; T]) (visibleItems s)
    ++ [mkItem (newGroupId now) (groupName s)].
Proof.
  intros Hp Hkey Hmem HD HT.
  unfold visibleItems, handleNameGroup. rewrite Hp. simpl.
  rewrite filter_app. f_equal.
  - rewrite !list_filter_filter. apply list_filter_iff. intros it.
    rewrite allMembers_insert_fresh by done. tauto.
  - rewrite filter_cons_True; [done|]. simpl.
    rewrite allMembers_insert_fresh by done.
    intros [Hin|Hin]; [|done].
    apply elem_of_cons in Hin as [?|Hin]; [done|].
    apply elem_of_cons in Hin as [?|Hin]; [done|].
    by apply elem_of_nil in Hin.
Qed.

(** ** Runs of delivered events: generated ids are new *)


Lemma newGroupId_not_seed (now : N) : newGroupId now ∉ id <$> items initialState.
Proof.
  unfold newGroupId. simpl. intros H.
  repeat (apply elem_of_cons in H as [H|H]; [discriminate H|]).
  by apply elem_of_nil in H.
Qed.




Lemma visible_ids_items (s : State) (i : string) :
  i ∈ id <$> visibleItems s → i ∈ id <$> items s.
Proof.
  intros (it & -> & [_ Hit]%elem_of_visibleItems)%list_elem_of_fmap.
  by apply list_elem_of_fmap_2.
Qed.









(** ** The invariant of the group map *)

Lemma elem_of_ids_filter (P : Item → Prop) `{!∀ x, Decision (P x)}
    (l : list Item) (k : string) :
  (∀ it, id it = k → P it) → k ∈ id <$> l → k ∈ id <$> filter P l.
Proof.
  intros HP (it & -> & Hin)%list_elem_of_fmap.
  apply list_elem_of_fmap. exists it. split; [done|].
  apply list_elem_of_filter. split; [by apply HP|done].
Qed.

Lemma enabled_drag_not_key (s : State) (a : string) :
  negb (isGrouped s a) = true → groupedItems s !! a = None.
Proof.
  by intros [? _]%negb_true_iff%isGrouped_false.
Qed.

Lemma invariant_initial : invariant initialState.
Proof.
  split.
  - intros k [ms Hk]. simpl in Hk. by rewrite lookup_empty in Hk.
  - intros p Hp. done.
Qed.

Lemma invariant_handleDragEnd (s s' : State) (active : string) (over : option string) :
  invariant s → groupedItems s !! active = None →
  handleDragEnd active over s = Some s' → invariant s'.
Proof.
  intros [Hkeys Hpend] Hactive Hstep. unfold handleDragEnd in Hstep.
  destruct over as [over|]; [|by injection Hstep as <-].
  destruct (decide (active ≠ over)) as [Hdiff|Hsame].
  - destruct (getProperty (groupedItems s) over) as [|members|a] eqn:Hget;
      [| |done]; injection Hstep as <-.
    + apply getProperty_undefined in Hget as [Hover _]. split; [done|].
      intros p Hp. simpl in *. by injection Hp as <-.
    + apply getProperty_array in Hget as Hover. split.
      * intros k Hk. simpl in *.
        assert (is_Some (groupedItems s !! k)) as Hk'.
        { destruct (decide (over = k)) as [<-|Hne]; [by rewrite Hover|].
          by rewrite lookup_insert_ne in Hk. }
        apply elem_of_ids_filter; [|by apply Hkeys].
        intros it <- Heq. rewrite Heq, Hactive in Hk'. by destruct Hk'.
      * intros p Hp. simpl in *. destruct (Hpend p Hp) as [Hd Ht].
        rewrite !lookup_insert_ne; [done|congruence..].
  - destruct (arrayMove _ _ _) as [moved|] eqn:Hmove; [|done].
    injection Hstep as <-. split; [|done].
    intros k Hk. simpl in *.
    apply arrayMove_Permutation in Hmove. rewrite Hmove. by apply Hkeys.
Qed.

Lemma invariant_handleNameGroup (s : State) (now : N) :
  invariant s → invariant (handleNameGroup now s).
Proof.
  intros [Hkeys Hpend]. split; [|done].
  unfold handleNameGroup.
  destruct (itemToGroup s) as [p|] eqn:Hp; [|done].
  intros k Hk. simpl in *. rewrite fmap_app. apply elem_of_app.
  destruct (decide (newGroupId now = k)) as [<-|Hne].
  - right. simpl. constructor.
  - left. rewrite lookup_insert_ne in Hk by done.
    apply elem_of_ids_filter; [|by apply Hkeys].
    destruct (Hpend p Hp) as [Hd Ht]. destruct Hk as [ms Hk].
    intros it <- Hin.
    apply elem_of_cons in Hin as [Heq|Hin]; [congruence|].
    apply elem_of_cons in Hin as [Heq|Hin]; [congruence|].
    by apply elem_of_nil in Hin.
Qed.

Lemma invariant_handleUngroup (s s' : State) (i : string) :
  invariant s → handleUngroup i s = Some s' → invariant s'.
Proof.
  intros [Hkeys Hpend] ->%handleUngroup_Some. split.
  - intros k Hk. simpl in *. rewrite fmap_app. apply elem_of_app. left.
    destruct (decide (i = k)) as [<-|Hne].
    + rewrite lookup_delete_eq in Hk. by destruct Hk.
    + rewrite lookup_delete_ne in Hk by done.
      apply elem_of_ids_filter; [|by apply Hkeys].
      by intros it <-.
  - intros p Hp. simpl in *. destruct (Hpend p Hp) as [Hd Ht].
    split; apply lookup_delete_None; by right.
Qed.

Lemma invariant_step (s s' : State) (e : Event) :
  invariant s → enabled s e = true → dispatch e s = Some s' → invariant s'.
Proof.
  intros Hinv Hen Hstep.
  destruct e as [a|a o|act|b|t| |b|now|i]; simpl in *.
  - by injection Hstep as <-.
  - eapply invariant_handleDragEnd; eauto using enabled_drag_not_key.
  - injection Hstep as <-. destruct act; [done|].
    destruct Hinv as [Hkeys _]. split; [done|]. intros p Hp. done.
  - by injection Hstep as <-.
  - by injection Hstep as <-.
  - by injection Hstep as <-.
  - by injection Hstep as <-.
  - injection Hstep as <-. by apply invariant_handleNameGroup.
  - by eapply invariant_handleUngroup.
Qed.

Lemma reachable_invariant (s : State) : reachable s → invariant s.
Proof.
  induction 1 as [|s e s' _ IH Hen Hstep].
  - apply invariant_initial.
  - by eapply invariant_step.
Qed.

(** C8: in every state reached from the initial one by the widget's events,
    every key of the group map is the id of an item of the item list. *)
Theorem reachable_keysAreItems (s : State) : reachable s → keysAreItems s.
Proof. intros Hr. by apply reachable_invariant. Qed.

(** Why drags of group rows are excluded: were such a drag delivered, the row
    of the dragged group would leave the item list while its key stays. *)
Example drag_of_group_row_drops_its_item :
  ∃ s1 s2 s3,
    handleDragEnd "1" (Some "3") initialState = Some s1 ∧
    handleDragEnd "2" (Some "4") (handleNameGroup 0 (handleGroup group s1)) = Some s2 ∧
    handleDragEnd (newGroupId 0) (Some (newGroupId 1))
                  (handleNameGroup 1 (handleGroup group s2)) = Some s3 ∧
    is_Some (groupedItems s3 !! newGroupId 0) ∧
    newGroupId 0 ∉ id <$> items s3.
Proof.
  eexists _, _, _.
  split; [vm_compute; reflexivity|].
  split; [vm_compute; reflexivity|].
  split; [vm_compute; reflexivity|].
  split.
  - eexists. vm_compute. reflexivity.
  - vm_compute. intros H. repeat (apply elem_of_cons in H as [H|H]; [done|]).
    by apply elem_of_nil in H.
Qed.

Lemma reachable_keysAreItems_witness :
  ∃ s, dispatch (NameGroup 0) (handleGroup group
         (setActiveId None (setShowGroupDialog true
            (setItemToGroup (Some (mkItemToGroup "1" "3")) initialState)))) = Some s ∧
       reachable s ∧ keysAreItems s.
Proof.
  eexists. split; [reflexivity|].
  pose proof (reach_step _ (DragEnd "1" (Some "3")) _ reach_init eq_refl eq_refl) as H1.
  pose proof (reach_step _ (GroupDialog group) _ H1 eq_refl eq_refl) as H2.
  pose proof (reach_step _ (NameGroup 0) _ H2 eq_refl eq_refl) as H3.
  split; [exact H3|]. exact (reachable_keysAreItems _ H3).
Defined.

(** * Further properties of the component *)

(** ** Group ids *)

(** X1: two clock readings give the same group id only when they are equal,
    and no group id is the id of one of the four seed items. *)
Theorem newGroupId_inj_and_not_seed (now now' : N) :
  (newGroupId now = newGroupId now' → now = now') ∧
  newGroupId now ∉ id <$> items initialState.
Proof.
  split.
  - unfold newGroupId. intros H. simpl in H.
    injection H as H. by apply (inj pretty).
  - unfold newGroupId. simpl. intros H.
    repeat (apply elem_of_cons in H as [H|H]; [discriminate H|]).
    by apply elem_of_nil in H.
Qed.

Lemma newGroupId_inj_and_not_seed_witness :
  newGroupId 1700000000000 = "group-1700000000000" ∧
  (1700000000000 = 1700000000000)%N.
Proof.
  split; [reflexivity|].
  apply (proj1 (newGroupId_inj_and_not_seed 1700000000000 1700000000000)).
  reflexivity.
Defined.

(** ** The nested member lines *)

Lemma memberLabel_absent (allItems : list Item) (subItemId : string) :
  subItemId ∉ id <$> allItems → memberLabel allItems subItemId = subItemId.
Proof.
  unfold memberLabel. induction allItems as [|it l IH]; [done|]. simpl.
  intros [Hne Hl]%not_elem_of_cons.
  rewrite bool_decide_eq_false_2 by done. by apply IH.
Qed.

(** X2: the line shown for a member is the content of the first item that
    carries the member's id, and the bare id when the item list has no such
    item. *)
Theorem memberLabel_first_match_or_id (allItems : list Item) (subItemId : string) :
  (subItemId ∉ id <$> allItems → memberLabel allItems subItemId = subItemId) ∧
  (∀ before subItem after,
     allItems = before ++ subItem :: after →
     subItemId ∉ id <$> before → id subItem = subItemId →
     memberLabel allItems subItemId = content subItem).
Proof.
  split; [apply memberLabel_absent|]. unfold memberLabel.
  intros before subItem after -> Hbefore Hid.
  induction before as [|it l IH]; simpl.
  - by rewrite bool_decide_eq_true_2.
  - simpl in Hbefore. apply not_elem_of_cons in Hbefore as [Hne Hl].
    rewrite bool_decide_eq_false_2 by done. by apply IH.
Qed.

Lemma memberLabel_first_match_or_id_witness :
  memberLabel (items initialState) "7" = "7" ∧
  memberLabel [mkItem "1" "one"; mkItem "2" "two"; mkItem "2" "again"] "2" = "two".
Proof.
  split.
  - apply (proj1 (memberLabel_first_match_or_id (items initialState) "7")).
    simpl. intros H.
    repeat (apply elem_of_cons in H as [H|H]; [discriminate H|]).
    by apply elem_of_nil in H.
  - apply (proj2 (memberLabel_first_match_or_id _ "2")
             [mkItem "1" "one"] (mkItem "2" "two") [mkItem "2" "again"]).
    + reflexivity.
    + simpl. intros H.
      repeat (apply elem_of_cons in H as [H|H]; [discriminate H|]).
      by apply elem_of_nil in H.
    + reflexivity.
Defined.

(** ** The dragged id is write-only *)

(** X4: no handler and no row reads [activeId]: whatever value it holds, every
    event leads to the same next state up to [activeId] itself, the same
    events are enabled, and the same rows are rendered. *)
Theorem activeId_never_read (e : Event) (s : State) (v : option string) :
  setActiveId None <$> dispatch e (setActiveId v s)
  = setActiveId None <$> dispatch e s ∧
  enabled (setActiveId v s) e = enabled s e ∧
  renderRows (setActiveId v s) = renderRows s.
Proof.
  split_and!; [|by destruct e|done].
  destruct e as [a|a [o|]|[]|b|t| |b|now|i]; simpl; try done.
  - unfold handleNameGroup. simpl. by destruct (itemToGroup s).
  - unfold handleUngroup. simpl.
    by destruct (orEmptyArray (getProperty (groupedItems s) i)).
Qed.

(** ** What a drag end leaves alone *)

(** X5: whatever the drop target, a drag end adds no item, adds or removes no
    group key, and touches neither the name dialog nor the typed name. *)
Theorem handleDragEnd_frame (s s' : State) (active : string) (over : option string) :
  handleDragEnd active over s = Some s' →
  (∀ it, it ∈ items s' → it ∈ items s) ∧
  (length (items s') ≤ length (items s))%nat ∧
  dom (groupedItems s') = dom (groupedItems s) ∧
  showNameDialog s' = showNameDialog s ∧
  groupName s' = groupName s.
Proof.
  unfold handleDragEnd. intros H.
  destruct over as [over|]; [|by injection H as <-].
  destruct (decide (active ≠ over)).
  - destruct (getProperty (groupedItems s) over) as [|members|a] eqn:Hover;
      [| |done]; injection H as <-; simpl.
    + by split_and!.
    + apply getProperty_array in Hover. split_and!; try done.
      * by intros it [_ ?]%list_elem_of_filter.
      * apply length_filter.
      * by apply dom_insert_lookup_L.
  - destruct (arrayMove _ _ _) as [moved|] eqn:Hmove; [|done].
    injection H as <-. simpl. apply arrayMove_Permutation in Hmove.
    split_and!; try done.
    + intros it. by rewrite Hmove.
    + by rewrite Hmove.
Qed.

Lemma handleDragEnd_frame_witness :
  ∃ s', handleDragEnd "2" (Some "4") initialState = Some s' ∧
        dom (groupedItems s') = dom (groupedItems initialState) ∧
        groupName s' = groupName initialState.
Proof.
  eexists. split; [reflexivity|].
  destruct (handleDragEnd_frame initialState _ "2" (Some "4") eq_refl)
    as (_ & _ & Hdom & _ & Hname).
  split; [exact Hdom|exact Hname].
Defined.

(** ** The whole grouping interaction *)

(** X6: from any state, dragging a row onto a different id for which the
    read of line 108 is undefined (no key of the group map, no name of
    [Object.prototype]), accepting, typing a name and creating the group gives
    the group map with the new entry, the item list without the two rows and
    with the group's row last, and every transient slot back at rest. *)
Theorem grouping_interaction (s : State) (active over name : string) (now : N) :
  active ≠ over → getProperty (groupedItems s) over = JsUndefined →
  ∃ s1, handleDragEnd active (Some over) (handleDragStart active s) = Some s1 ∧
        handleNameGroup now (setGroupName name (handleGroup group s1))
        = {| items := filter (λ item, id item ∉ [active; over]) (items s)
                      ++ [mkItem (newGroupId now) name];
             groupedItems := <[newGroupId now := [active; over]]> (groupedItems s);
             activeId := None;
             showGroupDialog := false;
             showNameDialog := false;
             itemToGroup := None;
             groupName := "" |}.
Proof.
  intros Hdiff Hover. eexists. split.
  - by apply handleDragEnd_undefined.
  - done.
Qed.

Lemma grouping_interaction_witness :
  ∃ s1, handleDragEnd "1" (Some "3") (handleDragStart "1" initialState) = Some s1 ∧
        items (handleNameGroup 7 (setGroupName "G1" (handleGroup group s1)))
        = [mkItem "2" "Item 2"; mkItem "4" "Item 4"; mkItem "group-7" "G1"].
Proof.
  destruct (grouping_interaction initialState "1" "3" "G1" 7) as (s1 & H1 & H2);
    [done|reflexivity|].
  exists s1. split; [exact H1|]. rewrite H2. reflexivity.
Defined.

(** ** Helpers on filtered item lists and on the members of the group map *)

Lemma filter_all_id {A} (P : A → Prop) `{!∀ x, Decision (P x)} (l : list A) :
  (∀ x, x ∈ l → P x) → filter P l = l.
Proof.
  induction l as [|x l IH]; [done|]. intros Hall.
  rewrite filter_cons_True by (apply Hall; constructor).
  f_equal. apply IH. intros y Hy. apply Hall. by constructor.
Qed.

Lemma filter_id_ne_absent (a : string) (l : list Item) :
  a ∉ id <$> l → filter (λ item, id item ≠ a) l = l.
Proof.
  intros Ha. apply filter_all_id. intros it Hit Heq.
  apply Ha. rewrite <-Heq. by apply list_elem_of_fmap_2.
Qed.

(** Taking the one row of an id out of a list of rows with distinct ids. *)
Lemma ids_remove_Permutation (a : string) (l : list Item) :
  NoDup (id <$> l) → a ∈ id <$> l →
  id <$> l ≡ₚ a :: (id <$> filter (λ item, id item ≠ a) l).
Proof.
  induction l as [|it l IH]; simpl.
  - by intros _ ?%elem_of_nil.
  - intros [Hit Hnd]%NoDup_cons Hin.
    destruct (decide (id it = a)) as [<-|Hne].
    + rewrite filter_cons_False by (by intros []).
      by rewrite filter_id_ne_absent.
    + rewrite filter_cons_True by done. simpl.
      apply elem_of_cons in Hin as [Heq|Hin]; [congruence|].
      rewrite (IH Hnd Hin) at 1. apply Permutation_swap.
Qed.

Lemma NoDup_ids_filter (P : Item → Prop) `{!∀ x, Decision (P x)} (l : list Item) :
  NoDup (id <$> l) → NoDup (id <$> filter P l).
Proof.
  intros Hnd. eapply sublist_NoDup; [exact Hnd|].
  apply fmap_sublist, sublist_filter.
Qed.

Lemma allMembers_insert_Permutation (g : GroupedItems) (k : string) (v : list string) :
  g !! k = None → allMembers (<[k := v]> g) ≡ₚ v ++ allMembers g.
Proof.
  intros Hk. unfold allMembers. by rewrite map_to_list_insert.
Qed.

Lemma allMembers_delete_Permutation (g : GroupedItems) (k : string) (ms : list string) :
  g !! k = Some ms → allMembers g ≡ₚ ms ++ allMembers (delete k g).
Proof.
  intros Hk. unfold allMembers. by rewrite <-(map_to_list_delete g k ms).
Qed.

(** ** Ids are neither lost nor invented *)

(** X9: dropping a row into a group moves its id from the item list to the
    end of the group and loses or duplicates nothing: with distinct row ids,
    the ids held afterwards are a rearrangement of the ids held before. *)
Theorem drop_into_group_conserves_ids
    (s : State) (active over : string) (members : list string) :
  groupedItems s !! over = Some members → active ≠ over →
  NoDup (id <$> items s) → active ∈ id <$> items s →
  ∃ s', handleDragEnd active (Some over) s = Some s' ∧ allIds s' ≡ₚ allIds s.
Proof.
  intros Hover Hdiff Hnd Hin. eexists. split.
  { by apply handleDragEnd_key. }
  unfold allIds. simpl.
  rewrite <-insert_delete_eq.
  rewrite allMembers_insert_Permutation by apply lookup_delete_eq.
  rewrite (allMembers_delete_Permutation _ _ _ Hover).
  rewrite (ids_remove_Permutation active (items s)) by done.
  solve_Permutation.
Qed.

(** X10: creating a group takes the two rows of the pending pair out of the
    item list, files their ids as the members, and adds one id, the new
    group's: with distinct row ids and both rows present, the ids held
    afterwards are the ids held before plus the new group id. *)
Theorem handleNameGroup_conserves_ids (s : State) (D T : string) (now : N) :
  itemToGroup s = Some (mkItemToGroup D T) → D ≠ T →
  NoDup (id <$> items s) → D ∈ id <$> items s → T ∈ id <$> items s →
  groupedItems s !! newGroupId now = None →
  allIds (handleNameGroup now s) ≡ₚ newGroupId now :: allIds s.
Proof.
  intros Hp Hdiff Hnd HD HT Hkey.
  unfold allIds, handleNameGroup. rewrite Hp. simpl.
  rewrite allMembers_insert_Permutation by done.
  rewrite fmap_app. simpl.
  assert (filter (λ item, id item ∉ [D; T]) (items s)
          = filter (λ item, id item ≠ T) (filter (λ item, id item ≠ D) (items s))) as ->.
  { rewrite list_filter_filter. apply list_filter_iff. intros it.
    rewrite !not_elem_of_cons. split.
    - intros (? & ? & _). done.
    - intros [? ?]. split_and!; [done..|apply not_elem_of_nil]. }
  rewrite (ids_remove_Permutation D (items s)) by done.
  rewrite (ids_remove_Permutation T (filter (λ item, id item ≠ D) (items s))).
  - solve_Permutation.
  - by apply NoDup_ids_filter.
  - apply list_elem_of_fmap in HT as (it & -> & Hit).
    apply list_elem_of_fmap. exists it. split; [done|].
    apply list_elem_of_filter. split; [congruence|done].
Qed.

(** X11: dissolving a group hands its members back as rows and drops the
    group's own row: with distinct row ids and the group's row present, the
    ids held before are the ids held afterwards plus the group id. *)
Theorem handleUngroup_conserves_ids (s : State) (g : string) (members : list string) :
  groupedItems s !! g = Some members →
  NoDup (id <$> items s) → g ∈ id <$> items s →
  ∃ s', handleUngroup g s = Some s' ∧ allIds s ≡ₚ g :: allIds s'.
Proof.
  intros Hg Hnd Hin. eexists. split; [by apply handleUngroup_key|].
  unfold allIds. simpl.
  rewrite fmap_app, <-list_fmap_compose.
  assert (id ∘ regenerated <$> members = members) as ->.
  { clear Hg. induction members as [|m ms IH]; [done|]. simpl. f_equal. apply IH. }
  rewrite (allMembers_delete_Permutation _ _ _ Hg).
  rewrite (ids_remove_Permutation g (items s)) by done.
  solve_Permutation.
Qed.

Lemma drop_into_group_conserves_ids_witness :
  let s := handleNameGroup 0 (setItemToGroup (Some (mkItemToGroup "1" "3")) initialState) in
  ∃ s', handleDragEnd "2" (Some (newGroupId 0)) s = Some s' ∧
        allIds s' ≡ₚ ["2"; "4"; "group-0"; "1"; "3"].
Proof.
  intros s.
  destruct (drop_into_group_conserves_ids s "2" (newGroupId 0) ["1"; "3"])
    as (s' & Hs' & Hperm).
  - reflexivity.
  - done.
  - vm_compute. repeat (constructor; [intros H;
      repeat (apply elem_of_cons in H as [H|H]; [discriminate H|]);
      by apply elem_of_nil in H|]). constructor.
  - vm_compute. repeat constructor.
  - exists s'. split; [exact Hs'|]. rewrite Hperm. reflexivity.
Defined.

Lemma handleNameGroup_conserves_ids_witness :
  let s := setItemToGroup (Some (mkItemToGroup "1" "3")) initialState in
  allIds (handleNameGroup 0 s) ≡ₚ ["group-0"; "1"; "2"; "3"; "4"].
Proof.
  intros s. rewrite (handleNameGroup_conserves_ids s "1" "3" 0).
  - reflexivity.
  - reflexivity.
  - done.
  - vm_compute. repeat (constructor; [intros H;
      repeat (apply elem_of_cons in H as [H|H]; [discriminate H|]);
      by apply elem_of_nil in H|]). constructor.
  - vm_compute. repeat constructor.
  - vm_compute. repeat constructor.
  - reflexivity.
Defined.

Lemma handleUngroup_conserves_ids_witness :
  let s := handleNameGroup 0 (setItemToGroup (Some (mkItemToGroup "1" "3")) initialState) in
  ∃ s', handleUngroup (newGroupId 0) s = Some s' ∧
        allIds s ≡ₚ "group-0" :: allIds s'.
Proof.
  intros s. apply (handleUngroup_conserves_ids s (newGroupId 0) ["1"; "3"]).
  - reflexivity.
  - vm_compute. repeat (constructor; [intros H;
      repeat (apply elem_of_cons in H as [H|H]; [discriminate H|]);
      by apply elem_of_nil in H|]). constructor.
  - vm_compute. repeat constructor.
Defined.

(** ** Create, then dissolve *)

Lemma ids_remove_pair_Permutation (D T : string) (l : list Item) :
  NoDup (id <$> l) → D ∈ id <$> l → T ∈ id <$> l → D ≠ T →
  id <$> l ≡ₚ (id <$> filter (λ item, id item ∉ [D; T]) l) ++ [D; T].
Proof.
  intros Hnd HD HT Hdiff.
  assert (filter (λ item, id item ∉ [D; T]) l
          = filter (λ item, id item ≠ T) (filter (λ item, id item ≠ D) l)) as ->.
  { rewrite list_filter_filter. apply list_filter_iff. intros it.
    rewrite !not_elem_of_cons. split.
    - intros (? & ? & _). done.
    - intros [? ?]. split_and!; [done..|apply not_elem_of_nil]. }
  rewrite (ids_remove_Permutation D l) at 1 by done.
  rewrite (ids_remove_Permutation T (filter (λ item, id item ≠ D) l)) at 1.
  - solve_Permutation.
  - by apply NoDup_ids_filter.
  - apply list_elem_of_fmap in HT as (it & -> & Hit).
    apply list_elem_of_fmap. exists it. split; [done|].
    apply list_elem_of_filter. split; [congruence|done].
Qed.

(** X7: creating a group under an id that is neither a key nor a row id and
    dissolving it again gives the group map back as it was; the item list
    comes back without the two rows of the pair in place, followed by the two
    regenerated rows.  With distinct row ids and both rows present, the row
    ids afterwards are a rearrangement of the row ids before. *)
Theorem create_then_ungroup (s : State) (D T : string) (now : N) :
  itemToGroup s = Some (mkItemToGroup D T) →
  groupedItems s !! newGroupId now = None →
  newGroupId now ∉ id <$> items s →
  ∃ s', handleUngroup (newGroupId now) (handleNameGroup now s) = Some s' ∧
        groupedItems s' = groupedItems s ∧
        items s'
        = filter (λ item, id item ∉ [D; T]) (items s)
          ++ [regenerated D; regenerated T] ∧
        (NoDup (id <$> items s) → D ∈ id <$> items s → T ∈ id <$> items s →
         D ≠ T → id <$> items s' ≡ₚ id <$> items s).
Proof.
  intros Hp Hkey Hrow. eexists. split.
  { apply (handleUngroup_key _ _ [D; T]).
    unfold handleNameGroup. rewrite Hp. simpl. apply lookup_insert_eq. }
  assert (filter (λ item, id item ≠ newGroupId now)
                 (items (handleNameGroup now s))
          = filter (λ item, id item ∉ [D; T]) (items s)) as Hitems.
  { unfold handleNameGroup. rewrite Hp. simpl.
    rewrite filter_app, filter_cons_False, filter_nil, app_nil_r by (by intros []).
    apply filter_all_id. intros it [_ Hit]%list_elem_of_filter Heq.
    apply Hrow. rewrite <-Heq. by apply list_elem_of_fmap_2. }
  split_and!.
  - unfold handleNameGroup. rewrite Hp. simpl.
    by rewrite delete_insert_eq, delete_id.
  - cbn [items setItems setGroupedItems]. by rewrite Hitems.
  - intros Hnd HD HT Hdiff. cbn [items setItems setGroupedItems].
    rewrite Hitems, fmap_app. simpl.
    symmetry. by apply ids_remove_pair_Permutation.
Qed.

Lemma create_then_ungroup_witness :
  let s := setItemToGroup (Some (mkItemToGroup "1" "3")) initialState in
  ∃ s', handleUngroup (newGroupId 0) (handleNameGroup 0 s) = Some s' ∧
        groupedItems s' = ∅ ∧
        items s' = [mkItem "2" "Item 2"; mkItem "4" "Item 4";
                    mkItem "1" "Item 1"; mkItem "3" "Item 3"].
Proof.
  intros s.
  destruct (create_then_ungroup s "1" "3" 0) as (s' & Hs' & Hg & Hi & _).
  - reflexivity.
  - reflexivity.
  - vm_compute. intros H.
    repeat (apply elem_of_cons in H as [H|H]; [discriminate H|]).
    by apply elem_of_nil in H.
  - exists s'. split_and!; [exact Hs'|exact Hg|]. rewrite Hi. reflexivity.
Defined.

(** X8: a second Ungroup on the same id changes nothing more (and throws
    when the first did), provided the id was not a member of its own group
    and, if it was a key, is no name of [Object.prototype]. *)
Theorem handleUngroup_idempotent (s : State) (g : string) :
  g ∉ default [] (groupedItems s !! g) →
  (is_Some (groupedItems s !! g) → g ∉ objectPrototypeNames) →
  handleUngroup g s ≫= handleUngroup g = handleUngroup g s.
Proof.
  intros Hself Hname.
  assert (∀ s1 : State,
            getProperty (groupedItems s1) g = JsUndefined →
            filter (λ item, id item ≠ g) (items s1) = items s1 →
            handleUngroup g s1 = Some s1) as Hagain.
  { intros s1 Hread Hitems. rewrite handleUngroup_undefined by done.
    unfold setItems. rewrite Hitems. by destruct s1. }
  destruct (getProperty (groupedItems s) g) as [|ms|a] eqn:Hread.
  - rewrite handleUngroup_undefined by done. simpl. apply Hagain; [done|].
    simpl. apply filter_all_id. by intros it [? _]%list_elem_of_filter.
  - apply getProperty_array in Hread as Hk. rewrite Hk in Hself. simpl in Hself.
    rewrite (handleUngroup_key _ _ ms) by done. simpl. apply Hagain.
    + simpl. apply getProperty_undefined. split; [apply lookup_delete_eq|].
      apply Hname. by rewrite Hk.
    + simpl. rewrite filter_app. f_equal.
      * apply filter_all_id. by intros it [? _]%list_elem_of_filter.
      * apply filter_all_id.
        intros it (m & -> & Hm)%list_elem_of_fmap Heq. simpl in Heq. by subst.
  - apply getProperty_inherited in Hread as [Hk Hin].
    by rewrite handleUngroup_inherited.
Qed.

Lemma handleUngroup_idempotent_witness :
  let s := handleNameGroup 0 (setItemToGroup (Some (mkItemToGroup "1" "3")) initialState) in
  handleUngroup (newGroupId 0) s ≫= handleUngroup (newGroupId 0)
  = handleUngroup (newGroupId 0) s.
Proof.
  intros s. apply handleUngroup_idempotent.
  - vm_compute. intros H.
    repeat (apply elem_of_cons in H as [H|H]; [discriminate H|]).
    by apply elem_of_nil in H.
  - intros _. apply newGroupId_not_inherited.
Defined.

(** ** What the rows show *)

(** X3: right after a group has been created under a new id, the last row is
    the group's: it shows the entered name, has the Ungroup button and no
    drag listeners, and lists its two members by their bare ids, since their
    items have left the item list. *)
Theorem created_group_row (s : State) (D T name : string) (now : N) :
  itemToGroup s = Some (mkItemToGroup D T) → groupName s = name →
  groupedItems s !! newGroupId now = None →
  newGroupId now ∉ allMembers (groupedItems s) →
  newGroupId now ≠ D → newGroupId now ≠ T →
  last (renderRows (handleNameGroup now s))
  = Some (Some {| viewId := newGroupId now; viewText := name;
                  viewListeners := false; viewUngroupButton := true;
                  viewMembers := [D; T] |}).
Proof.
  intros Hp Hname Hkey Hmem HD HT. unfold renderRows.
  rewrite (visibleItems_handleNameGroup s D T) by done.
  rewrite fmap_app. simpl. rewrite last_snoc. f_equal.
  assert (∀ x, x ∈ [D; T] → x ∉ id <$> items (handleNameGroup now s)) as Hgone.
  { intros x Hx. unfold handleNameGroup. rewrite Hp. simpl.
    rewrite fmap_app. simpl.
    intros [(it & -> & [Hit _]%list_elem_of_filter)%list_elem_of_fmap|Hin]%elem_of_app;
      [done|].
    apply list_elem_of_singleton in Hin. subst x.
    apply elem_of_cons in Hx as [?|Hx]; [done|].
    apply elem_of_cons in Hx as [?|Hx]; [done|].
    by apply elem_of_nil in Hx. }
  assert (getProperty (groupedItems (handleNameGroup now s)) (newGroupId now)
          = JsArray [D; T]) as Hnew.
  { apply getProperty_array.
    unfold handleNameGroup. rewrite Hp. simpl. apply lookup_insert_eq. }
  remember (handleNameGroup now s) as s' eqn:Hs'. clear Hs'.
  unfold SortableItem, nestedMembers, rowProps, isGrouped. simpl. rewrite Hnew.
  simpl.
  rewrite !memberLabel_absent by (apply Hgone; repeat constructor).
  by rewrite Hname.
Qed.

Lemma created_group_row_witness :
  let s := setGroupName "G1" (setItemToGroup (Some (mkItemToGroup "1" "3")) initialState) in
  last (renderRows (handleNameGroup 0 s))
  = Some (Some {| viewId := "group-0"; viewText := "G1";
                  viewListeners := false; viewUngroupButton := true;
                  viewMembers := ["1"; "3"] |}).
Proof.
  intros s. apply (created_group_row s "1" "3" "G1" 0); try done.
  vm_compute. by intros ?%elem_of_nil.
Defined.

(** ** A clock reading used twice *)

(** X12: when the generated id is already a key, creating the group replaces
    the members stored under that key by the new pair, leaves the other keys
    alone, and, when the key's row is still in the item list, leaves the item
    list with two rows of that id. *)
Theorem handleNameGroup_existing_key (s : State) (D T : string) (now : N)
    (old : list string) :
  itemToGroup s = Some (mkItemToGroup D T) →
  groupedItems s !! newGroupId now = Some old →
  groupedItems (handleNameGroup now s) !! newGroupId now = Some [D; T] ∧
  dom (groupedItems (handleNameGroup now s)) = dom (groupedItems s) ∧
  (∀ k, k ≠ newGroupId now →
        groupedItems (handleNameGroup now s) !! k = groupedItems s !! k) ∧
  (newGroupId now ∈ id <$> items s → newGroupId now ≠ D → newGroupId now ≠ T →
     ¬ NoDup (id <$> items (handleNameGroup now s))).
Proof.
  intros Hp Hold. unfold handleNameGroup. rewrite Hp. simpl. split_and!.
  - apply lookup_insert_eq.
  - apply dom_insert_lookup_L. eauto.
  - intros k Hk. by rewrite lookup_insert_ne.
  - intros Hrow HD HT. rewrite fmap_app. simpl.
    intros (_ & Hdisj & _)%NoDup_app.
    apply (Hdisj (newGroupId now)); [|constructor].
    apply list_elem_of_fmap in Hrow as (it & Heq & Hit).
    apply list_elem_of_fmap. exists it. split; [done|].
    apply list_elem_of_filter. split; [|done].
    rewrite <-Heq. intros Hin.
    apply elem_of_cons in Hin as [?|Hin]; [done|].
    apply elem_of_cons in Hin as [?|Hin]; [done|].
    by apply elem_of_nil in Hin.
Qed.

Lemma handleNameGroup_existing_key_witness :
  let s := setItemToGroup (Some (mkItemToGroup "2" "4"))
             (handleNameGroup 0
                (setItemToGroup (Some (mkItemToGroup "1" "3")) initialState)) in
  groupedItems (handleNameGroup 0 s) !! newGroupId 0 = Some ["2"; "4"] ∧
  id <$> items (handleNameGroup 0 s) = ["group-0"; "group-0"].
Proof.
  intros s.
  destruct (handleNameGroup_existing_key s "2" "4" 0 ["1"; "3"]) as (Hk & _);
    [reflexivity|reflexivity|].
  split; [exact Hk|reflexivity].
Defined.

(** ** The shape of the groups in reachable states *)

Lemma wellFormed_initial : groupsWellFormed initialState ∧ pendingDistinct initialState.
Proof.
  split.
  - intros k ms Hk. simpl in Hk. by rewrite lookup_empty in Hk.
  - by intros p Hp.
Qed.

Lemma wellFormed_step (s s' : State) (e : Event) :
  groupsWellFormed s ∧ pendingDistinct s →
  dispatch e s = Some s' →
  groupsWellFormed s' ∧ pendingDistinct s'.
Proof.
  intros [Hwf Hpd] Hstep.
  destruct e as [a|a o|act|b|t| |b|now|i]; simpl in *.
  - by injection Hstep as <-.
  - unfold handleDragEnd in Hstep.
    destruct o as [o|]; [|by injection Hstep as <-].
    destruct (decide (a ≠ o)) as [Hdiff|_].
    + destruct (getProperty (groupedItems s) o) as [|members|ar] eqn:Ho;
        [| |done]; injection Hstep as <-.
      * split; [done|]. intros p Hp. simpl in Hp. by injection Hp as <-.
      * apply getProperty_array in Ho.
        split; [|done]. intros k ms Hk. simpl in Hk.
        destruct (decide (o = k)) as [<-|Hne].
        -- rewrite lookup_insert_eq in Hk. injection Hk as <-.
           destruct (Hwf o members Ho) as (Hkey & d & t & rest & -> & Hdt).
           split; [done|]. by exists d, t, (rest ++ [a]).
        -- rewrite lookup_insert_ne in Hk by done. by apply Hwf.
    + destruct (arrayMove _ _ _); [by injection Hstep as <-|done].
  - injection Hstep as <-. destruct act; [done|]. split; [done|]. by intros p Hp.
  - by injection Hstep as <-.
  - by injection Hstep as <-.
  - by injection Hstep as <-.
  - by injection Hstep as <-.
  - injection Hstep as <-. split; [|by intros p Hp].
    unfold handleNameGroup. destruct (itemToGroup s) as [p|] eqn:Hp; [|done].
    intros k ms Hk. simpl in Hk.
    destruct (decide (newGroupId now = k)) as [<-|Hne].
    + rewrite lookup_insert_eq in Hk. injection Hk as <-.
      split; [by eexists|]. exists (dragged p), (target p), []. split; [done|].
      by apply Hpd.
    + rewrite lookup_insert_ne in Hk by done. by apply Hwf.
  - apply handleUngroup_Some in Hstep as ->. split; [|done].
    intros k ms Hk. simpl in Hk.
    apply lookup_delete_Some in Hk as [_ Hk]. by apply Hwf.
Qed.

Lemma reachable_wellFormed (s : State) :
  reachable s → groupsWellFormed s ∧ pendingDistinct s.
Proof.
  induction 1 as [|s e s' _ IH _ Hstep].
  - apply wellFormed_initial.
  - by eapply wellFormed_step.
Qed.

Lemma reachable_groups_well_formed_aux (s : State) :
  reachable s → ∀ k ms, groupedItems s !! k = Some ms → (2 ≤ length ms)%nat.
Proof.
  intros [Hwf _]%reachable_wellFormed k ms Hk.
  destruct (Hwf k ms Hk) as (_ & d & t & rest & -> & _). simpl. lia.
Qed.

(** X13: in every state reached from the initial one, each group key is a
    generated id and its members start with two different ids, so a group
    never has fewer than two members; the four seed ids are never keys; and
    every row with the Ungroup button lists at least two members (the test
    of line 64 never hides the list of a group). *)
Theorem reachable_groups_well_formed (s : State) :
  reachable s →
  (∀ k ms, groupedItems s !! k = Some ms →
           (∃ now, k = newGroupId now) ∧ (2 ≤ length ms)%nat ∧
           ∃ d t rest, ms = d :: t :: rest ∧ d ≠ t) ∧
  (∀ it, it ∈ items initialState → isGrouped s (id it) = false) ∧
  (∀ row, Some row ∈ renderRows s → viewUngroupButton row = true →
          (2 ≤ length (viewMembers row))%nat).
Proof.
  intros Hr. destruct (reachable_wellFormed s Hr) as [Hwf _].
  destruct (reachable_idsPlain s Hr) as [Hrows _].
  assert (∀ k ms, groupedItems s !! k = Some ms → (2 ≤ length ms)%nat) as Hlen.
  { intros k ms Hk. destruct (Hwf k ms Hk) as (_ & d & t & rest & -> & _).
    simpl. lia. }
  split_and!.
  - intros k ms Hk. destruct (Hwf k ms Hk) as [Hkey Hms]. eauto.
  - intros it Hit. apply isGrouped_false.
    assert (id it ∈ id <$> items initialState) as Hseed
      by (by apply list_elem_of_fmap_2).
    split; [|by apply seed_not_inherited].
    apply eq_None_not_Some. intros [ms Hk].
    destruct (Hwf _ _ Hk) as [[now Hkey] _].
    apply (newGroupId_not_seed now). by rewrite <-Hkey.
  - intros row (it & Hrow & Hit)%list_elem_of_fmap.
    unfold SortableItem, nestedMembers, rowProps, isGrouped in Hrow.
    simpl in Hrow.
    rewrite (reachable_row_read s (id it) Hr) in Hrow
      by (by apply visible_ids_items, list_elem_of_fmap_2).
    destruct (groupedItems s !! id it) as [ms|] eqn:Hk; simpl in Hrow.
    + pose proof (Hlen _ _ Hk) as Hms.
      rewrite bool_decide_eq_true_2 in Hrow by lia. simpl in Hrow.
      injection Hrow as ->. simpl. intros _. by rewrite length_fmap.
    + by injection Hrow as ->.
Qed.

Lemma reachable_groups_well_formed_witness :
  ∃ s, dispatch (NameGroup 0) (handleGroup group
         (setActiveId None (setShowGroupDialog true
            (setItemToGroup (Some (mkItemToGroup "1" "3")) initialState)))) = Some s ∧
       reachable s ∧ isGrouped s "2" = false.
Proof.
  eexists. split; [reflexivity|].
  pose proof (reach_step _ (DragEnd "1" (Some "3")) _ reach_init eq_refl eq_refl) as H1.
  pose proof (reach_step _ (GroupDialog group) _ H1 eq_refl eq_refl) as H2.
  pose proof (reach_step _ (NameGroup 0) _ H2 eq_refl eq_refl) as H3.
  split; [exact H3|].
  destruct (reachable_groups_well_formed _ H3) as (_ & Hseed & _).
  apply (Hseed (mkItem "2" "Item 2")). vm_compute. repeat constructor.
Defined.

(** X14: in every state reached from the initial one, every visible item
    renders to a row (nothing throws); the row has the Ungroup button exactly
    when its id is a key of the group map, and the drag listeners exactly
    when it is not; a row that is no key lists no members, and a row that is
    a key lists one line per member. *)
Theorem reachable_rows_render (s : State) (item : Item) :
  reachable s → item ∈ visibleItems s →
  ∃ row, SortableItem (rowProps s item) = Some row ∧
         viewUngroupButton row = bool_decide (is_Some (groupedItems s !! id item)) ∧
         viewListeners row = negb (viewUngroupButton row) ∧
         (groupedItems s !! id item = None → viewMembers row = []) ∧
         (∀ ms, groupedItems s !! id item = Some ms →
                viewMembers row = memberLabel (items s) <$> ms).
Proof.
  intros Hr Hitem.
  pose proof (reachable_groups_well_formed_aux s Hr) as Hlen.
  unfold SortableItem, nestedMembers, rowProps, isGrouped. simpl.
  rewrite (reachable_row_read s (id item) Hr)
    by (by apply visible_ids_items, list_elem_of_fmap_2).
  destruct (groupedItems s !! id item) as [ms|] eqn:Hk; simpl.
  - pose proof (Hlen _ _ Hk) as Hms.
    rewrite bool_decide_eq_true_2 by lia. simpl. eexists. split; [done|]. simpl.
    split_and!; [done|done|done|by intros ms' [= <-]].
  - eexists. split; [done|]. simpl. by split_and!.
Qed.

Lemma reachable_rows_render_witness :
  ∃ row, SortableItem (rowProps initialState (mkItem "2" "Item 2")) = Some row ∧
         viewUngroupButton row = false.
Proof.
  destruct (reachable_rows_render initialState (mkItem "2" "Item 2") reach_init)
    as (row & Hrow & Hbutton & _).
  - vm_compute. repeat constructor.
  - exists row. split; [exact Hrow|]. rewrite Hbutton. reflexivity.
Defined.

(** ** Drop into a group, then dissolve it *)

(** X15: after a row has been dropped into a group and the group is
    dissolved, the group's key is gone and the item list is the old one
    without the dragged row and without the group's row, followed by the
    regenerated rows of the old members and, last, of the dragged id. *)
Theorem drop_then_ungroup (s : State) (active over : string) (members : list string) :
  groupedItems s !! over = Some members → active ≠ over →
  ∃ s1 s2, handleDragEnd active (Some over) s = Some s1 ∧
           handleUngroup over s1 = Some s2 ∧
           groupedItems s2 = delete over (groupedItems s) ∧
           items s2
           = filter (λ item, id item ∉ [active; over]) (items s)
             ++ (regenerated <$> members) ++ [regenerated active].
Proof.
  intros Hover Hdiff. eexists _, _. split; [by apply handleDragEnd_key|].
  split.
  { apply (handleUngroup_key _ _ (members ++ [active])).
    simpl. apply lookup_insert_eq. }
  simpl. split.
  - apply delete_insert_eq.
  - rewrite fmap_app. simpl. f_equal.
    rewrite list_filter_filter. apply list_filter_iff. intros it.
    rewrite !not_elem_of_cons. split.
    + intros [? ?]. split_and!; [done..|apply not_elem_of_nil].
    + intros (? & ? & _). done.
Qed.

Lemma drop_then_ungroup_witness :
  let s := handleNameGroup 0 (setItemToGroup (Some (mkItemToGroup "1" "3")) initialState) in
  ∃ s1 s2, handleDragEnd "2" (Some (newGroupId 0)) s = Some s1 ∧
           handleUngroup (newGroupId 0) s1 = Some s2 ∧
           groupedItems s2 = ∅ ∧
           items s2
           = [mkItem "4" "Item 4"; mkItem "1" "Item 1";
              mkItem "3" "Item 3"; mkItem "2" "Item 2"].
Proof.
  intros s.
  destruct (drop_then_ungroup s "2" (newGroupId 0) ["1"; "3"])
    as (s1 & s2 & H1 & H2 & Hg & Hi); [reflexivity|done|].
  exists s1, s2. split_and!; [exact H1|exact H2| |].
  - rewrite Hg. reflexivity.
  - rewrite Hi. reflexivity.
Defined.

(** ** The pending pair in reachable states *)

(** X16: in every state reached from the initial one, a pending pair names
    two different ids, neither of which is a group key; so creating the group
    never pairs a row with itself and never takes a group's row away. *)
Theorem reachable_pending_pair (s : State) (p : ItemToGroup) :
  reachable s → itemToGroup s = Some p →
  dragged p ≠ target p ∧
  groupedItems s !! dragged p = None ∧ groupedItems s !! target p = None.
Proof.
  intros Hr Hp.
  destruct (reachable_wellFormed s Hr) as [_ Hpd].
  destruct (reachable_invariant s Hr) as [_ Hpk].
  destruct (Hpk p Hp) as [Hd Ht]. split_and!; [by apply Hpd|done|done].
Qed.

Lemma reachable_pending_pair_witness :
  ∃ s, handleDragEnd "1" (Some "3") initialState = Some s ∧
       itemToGroup s = Some (mkItemToGroup "1" "3") ∧
       groupedItems s !! "3" = None.
Proof.
  eexists. split; [reflexivity|].
  pose proof (reach_step _ (DragEnd "1" (Some "3")) _ reach_init eq_refl eq_refl) as H1.
  destruct (reachable_pending_pair _ (mkItemToGroup "1" "3") H1 eq_refl) as (_ & _ & Ht).
  split; [reflexivity|exact Ht].
Defined.
